(** * MongoDBTransaction: the transaction coordinator of
    [src/MongoDBTransaction.ts]

    The class [Transaction] wraps the multi-statement transactions of the
    MongoDB driver: [getInstance] hands out a process-wide singleton and
    [createTransaction] opens a session, starts a transaction, walks a list
    of create / update / delete operations and commits, or aborts and
    rethrows when the [try] block throws.

    The driver is an external collaborator.  It is modelled as a
    deterministic oracle ([Backend]) that answers every driver call, given
    the calls made so far, with one of three outcomes: the call resolves,
    the promise it returns rejects, or the call throws synchronously.  The
    coordinator is embedded over a small state-and-exception monad whose
    state is the history of driver calls.  What the calls do to the
    collections is not in the sources; where a statement needs it, a
    reference server gives the documented effect of [insertOne],
    [updateOne], [deleteOne] and of commit and abort.

    A rejected promise that nobody awaits is only recorded in the
    history; what the runtime does with an unhandled rejection is outside
    the model. *)

From stdpp Require Import base strings gmap list.

(** ** The data model (lines 3-25 of the source) *)

(** [export enum OperationType]: a string enum, so that at run time
    [operation.operationType] is a string and the members are the three
    strings below. *)
Module OperationType.
Inductive t := Create | Update | Delete.

Definition to_string (ty : t) : string :=
  match ty with
  | Create => "CREATE"
  | Update => "UPDATE"
  | Delete => "DELETE"
  end.

(** The member a run-time string stands for, tested as the [case]
    labels of the [switch] are: in order, by string equality. *)
Definition of_string (s : string) : option t :=
  if decide (s = to_string Create) then Some Create
  else if decide (s = to_string Update) then Some Update
  else if decide (s = to_string Delete) then Some Delete
  else None.
End OperationType.

(** [class MongoClient] of the driver, as far as the source uses it: it is
    built from a connection string. *)
Record MongoClient := { uri : string }.

(** [ClientSession]: the handle returned by [connection.startSession()]. *)
Record ClientSession := { sid : nat }.

(** ** The singleton (lines 43-61) *)

(** An object of [class Transaction].  [oid] stands for the identity of
    the object: two objects built by two [new Transaction(..)] differ even
    when their fields agree. *)
Record Transaction := {
  oid : nat;
  mongodbUri : string;
  client : MongoClient
}.

(** The static side of the class: [Transaction.instance], [undefined]
    until it is assigned, and the number of times the constructor has
    been run so far. *)
Record Statics := {
  instance : option Transaction;
  constructed : nat
}.

(** The state of a process that has not touched the class yet. *)
Definition fresh : Statics := {| instance := None; constructed := 0 |}.

Section Coordinator.

(** The field values of a document are [unknown] in the source, and a
    thrown value can be anything. *)
Context {value error : Type}.

(** [Record<string, unknown>]. *)
Definition Doc : Type := gmap string value.

(** [type CollectionData]: both fields are optional at run time; the type
    asks for at least one of them. *)
Record CollectionData := {
  index : option Doc;
  insert : option Doc
}.

Definition CollectionData_typed (d : CollectionData) : Prop :=
  is_Some (index d) ∨ is_Some (insert d).

Record Collector := {
  collectionName : string;
  data : CollectionData
}.

Record Operation := {
  operationType : string;
  collectors : list Collector
}.

(** Object spread [{ ...x }]: a shallow copy of the own properties of
    [x], and the empty object when [x] is [undefined]. *)
Definition spread (x : option Doc) : Doc :=
  match x with
  | Some d => d
  | None => ∅
  end.

(** ** Driver calls *)

(** The update document of [updateOne]; the source only ever builds
    [{ $set: ... }]. *)
Inductive UpdateDocument := DollarSet (fields : Doc).

(** The calls the source makes on the driver.  A write call carries the
    database and collection it addresses and the session of its
    [{ session }] option; getting the handles ([this.client.db(dbName)],
    [db.collection(collectionName)]) counts as part of the write call. *)
Inductive Call :=
| Connect
| StartSession
| StartTransaction (session : ClientSession)
| InsertOne (db coll : string) (doc : Doc) (session : ClientSession)
| UpdateOne (db coll : string) (filter : Doc) (update : UpdateDocument)
            (session : ClientSession)
| DeleteOne (db coll : string) (filter : Doc) (session : ClientSession)
| CommitTransaction (session : ClientSession)
| AbortTransaction (session : ClientSession).

Definition is_write (c : Call) : bool :=
  match c with
  | InsertOne _ _ _ _ | UpdateOne _ _ _ _ _ | DeleteOne _ _ _ _ => true
  | _ => false
  end.

(** What a call does: it returns and, where it returns a promise, the
    promise is fulfilled; it returns a promise that is rejected; or it
    throws before it returns.  For [startSession] and [startTransaction],
    which return no promise, only [Throws] is a failure. *)
Inductive Outcome :=
| Resolves
| Rejects (e : error)
| Throws (e : error).

Record Event := { call : Call; outcome : Outcome }.

Definition History : Type := list Event.

(** The driver and the server behind it: the outcome of a call, given
    the calls made before it. *)
Definition Backend : Type := History → Call → Outcome.

(** ** Effects: histories and exceptions *)

Inductive Completion (A : Type) :=
| Normal (a : A)
| Thrown (e : error).
Global Arguments Normal {A} a.
Global Arguments Thrown {A} e.

Definition Eff (A : Type) : Type := History → Completion A * History.

Definition ret {A} (a : A) : Eff A := λ h, (Normal a, h).

Definition throw {A} (e : error) : Eff A := λ h, (Thrown e, h).

Definition bind {A B} (m : Eff A) (k : A → Eff B) : Eff B :=
  λ h, match m h with
       | (Normal a, h') => k a h'
       | (Thrown e, h') => (Thrown e, h')
       end.

(** [try { m } catch (error) { handler }]. *)
Definition try_catch {A} (m : Eff A) (handler : error → Eff A) : Eff A :=
  λ h, match m h with
       | (Normal a, h') => (Normal a, h')
       | (Thrown e, h') => handler e h'
       end.

(** A promise, by what it settles to.  When it settles plays no role:
    the source awaits a promise at once or never looks at it, and the
    bodies of the handlers contain no [await], so that an [async] body
    runs to its end when it is called. *)
Definition Promise (A : Type) : Type := Completion A.

(** [async function]: the body runs, and what it returns or throws
    settles the promise that the call returns; the call itself never
    throws. *)
Definition async {A} (body : Eff A) : Eff (Promise A) :=
  λ h, let '(r, h') := body h in (Normal r, h').

(** [await p]: the value of a fulfilled promise, and the reason of a
    rejected one is thrown. *)
Definition await {A} (m : Eff (Promise A)) : Eff A :=
  bind m (λ p, match p with
               | Normal a => ret a
               | Thrown e => throw e
               end).

Local Notation "m1 ;; m2" := (bind m1 (λ _, m2))
  (at level 100, m2 at level 200, right associativity).
Local Notation "'let*' x ':=' m 'in' k" := (bind m (λ x, k))
  (at level 10, x name, m at level 100, k at level 200).

(** ** The driver call of each handler (lines 109-112, 131-135, 152-155) *)

Definition insertOne_call (dbName : string) (session : ClientSession)
    (collector : Collector) : Call :=
  InsertOne dbName (collectionName collector)
            (spread (insert (data collector))) session.

Definition updateOne_call (dbName : string) (session : ClientSession)
    (collector : Collector) : Call :=
  UpdateOne dbName (collectionName collector)
            (spread (index (data collector)))
            (DollarSet (spread (insert (data collector)))) session.

Definition deleteOne_call (dbName : string) (session : ClientSession)
    (collector : Collector) : Call :=
  DeleteOne dbName (collectionName collector)
            (spread (index (data collector))) session.

Section WithBackend.

Variable backend : Backend.

Definition record (h : History) (c : Call) : History :=
  h ++ [{| call := c; outcome := backend h c |}].

(** A driver call: it is recorded, and it either throws on the spot
    or returns a promise. *)
Definition invoke (c : Call) : Eff (Promise unit) :=
  λ h, (match backend h c with
        | Resolves => Normal (Normal tt)
        | Rejects e => Normal (Thrown e)
        | Throws e => Thrown e
        end, record h c).

(** [connection.startSession()]: a new handle for every call. *)
Definition startSession : Eff ClientSession :=
  λ h, (match backend h StartSession with
        | Throws e => Thrown e
        | Resolves | Rejects _ => Normal {| sid := length h |}
        end, record h StartSession).

(** ** The three handlers (lines 102-157) *)

(** [for (let collector of collectors) { db.collection(..).f(..) }]:
    the promise of each call is dropped. *)
Fixpoint for_collectors (f : Collector → Call)
    (collectors : list Collector) : Eff unit :=
  match collectors with
  | [] => ret tt
  | collector :: rest => invoke (f collector) ;; for_collectors f rest
  end.

(** [private async create]. *)
Definition create (dbName : string) (collectors : list Collector)
    (session : ClientSession) : Eff (Promise unit) :=
  async (for_collectors (insertOne_call dbName session) collectors).

(** [private update] and [private delete] are not [async]. *)
Definition update (dbName : string) (collectors : list Collector)
    (session : ClientSession) : Eff unit :=
  for_collectors (updateOne_call dbName session) collectors.

Definition delete (dbName : string) (collectors : list Collector)
    (session : ClientSession) : Eff unit :=
  for_collectors (deleteOne_call dbName session) collectors.

(** ** [createTransaction] (lines 69-93) *)

(** The [switch] of lines 76-86: it has no [default] case, and the
    promise of [this.create(...)] is dropped. *)
Definition dispatch (dbName : string) (operation : Operation)
    (session : ClientSession) : Eff unit :=
  if decide (operationType operation
             = OperationType.to_string OperationType.Create) then
    create dbName (collectors operation) session ;; ret tt
  else if decide (operationType operation
                  = OperationType.to_string OperationType.Update) then
    update dbName (collectors operation) session
  else if decide (operationType operation
                  = OperationType.to_string OperationType.Delete) then
    delete dbName (collectors operation) session
  else ret tt.

(** [for await (let operation of operations) { switch ... }]. *)
Fixpoint for_operations (dbName : string) (operations : list Operation)
    (session : ClientSession) : Eff unit :=
  match operations with
  | [] => ret tt
  | operation :: rest =>
      dispatch dbName operation session ;;
      for_operations dbName rest session
  end.

Definition createTransaction (dbName : string)
    (operations : list Operation) : Eff unit :=
  await (invoke Connect) ;;
  let* session := startSession in
  invoke (StartTransaction session) ;;
  try_catch
    (for_operations dbName operations session ;;
     await (invoke (CommitTransaction session)))
    (λ err,
       await (invoke (AbortTransaction session)) ;;
       throw err).

(** The history after the calls [cs] are made one after the other. *)
Definition issue (h : History) (cs : list Call) : History :=
  foldl record h cs.

(** The events these calls add to the history. *)
Fixpoint events (h : History) (cs : list Call) : list Event :=
  match cs with
  | [] => []
  | c :: rest =>
      {| call := c; outcome := backend h c |} :: events (record h c) rest
  end.

End WithBackend.

(** ** Vocabulary of the statements *)

Definition calls (h : History) : list Call := map call h.

(** The calls made from history [h0] on, in a history [h] that
    extends it. *)
Definition made (h0 h : History) : list Call := drop (length h0) (calls h).

(** The session handle that a run of [createTransaction] started at
    history [h0] obtains: [startSession] is its second driver call. *)
Definition session_from (h0 : History) : ClientSession :=
  {| sid := S (length h0) |}.

(** The run from history [h0] to history [h] made the call [c] inside
    the transaction of session [s]: after [startTransaction], before the
    commit, among write calls only. *)
Definition in_transaction (h0 h : History) (s : ClientSession) (c : Call)
    : Prop :=
  ∃ before after,
    calls h = calls h0 ++ [Connect; StartSession; StartTransaction s]
              ++ before ++ c :: after ++ [CommitTransaction s]
    ∧ Forall (λ w, is_write w = true) (before ++ after).

(** The driver call the handler of an operation type makes for one
    collector. *)
Definition write_call (ty : OperationType.t) (dbName : string)
    (session : ClientSession) (collector : Collector) : Call :=
  match ty with
  | OperationType.Create => insertOne_call dbName session collector
  | OperationType.Update => updateOne_call dbName session collector
  | OperationType.Delete => deleteOne_call dbName session collector
  end.

Definition writes_of (dbName : string) (session : ClientSession)
    (operation : Operation) : list Call :=
  match OperationType.of_string (operationType operation) with
  | Some ty => map (write_call ty dbName session) (collectors operation)
  | None => []
  end.



(** No driver call throws synchronously: failures, if any, come as
    rejected promises. *)
Definition no_sync_throw (b : Backend) : Prop :=
  ∀ h c e, b h c ≠ Throws e.

(** Connecting, starting, committing and aborting always succeed. *)
Definition session_calls_resolve (b : Backend) : Prop :=
  ∀ h c, is_write c = false → b h c = Resolves.

(** The structural invariants of a write item that the specification
    asks for: a payload for an insert, a selector and a payload for an
    update, a selector for a delete. *)
Definition malformed (tag : string) (c : Collector) : Prop :=
  match OperationType.of_string tag with
  | Some OperationType.Create => insert (data c) = None
  | Some OperationType.Update =>
      index (data c) = None ∨ insert (data c) = None
  | Some OperationType.Delete => index (data c) = None
  | None => False
  end.

(** A write item with every absent field made an empty document. *)
Definition fill_data (d : CollectionData) : CollectionData :=
  {| index := Some (spread (index d)); insert := Some (spread (insert d)) |}.

Definition fill_collector (c : Collector) : Collector :=
  {| collectionName := collectionName c; data := fill_data (data c) |}.

Definition fill_operation (op : Operation) : Operation :=
  {| operationType := operationType op;
     collectors := map fill_collector (collectors op) |}.

(** A write item with its payload replaced. *)
Definition with_insert (payload : option Doc) (c : Collector) : Collector :=
  {| collectionName := collectionName c;
     data := {| index := index (data c); insert := payload |} |}.

(** Validation before dispatch, as the specification words it, for one
    run: a malformed item makes the run fail, with the transaction
    aborted and no driver call made for the item. *)
Definition validates_items (b : Backend) (dbName : string)
    (operations : list Operation) (h0 : History) : Prop :=
  ∀ op c ty,
    op ∈ operations → c ∈ collectors op →
    OperationType.of_string (operationType op) = Some ty →
    malformed (operationType op) c →
    ∃ e h,
      createTransaction b dbName operations h0 = (Thrown e, h)
      ∧ (∃ s, AbortTransaction s ∈ made h0 h)
      ∧ ∀ s, write_call ty dbName s c ∉ made h0 h.

(** ** Vocabulary of the statements about every backend *)

(** The events added to the history [h0] in a history [h] that
    extends it. *)
Definition new_events (h0 h : History) : list Event := drop (length h0) h.

(** The database a write call addresses, and the session a call names. *)
Definition database_of (c : Call) : option string :=
  match c with
  | InsertOne db _ _ _ | UpdateOne db _ _ _ _ | DeleteOne db _ _ _ => Some db
  | _ => None
  end.

Definition session_of (c : Call) : option ClientSession :=
  match c with
  | StartTransaction s | CommitTransaction s | AbortTransaction s
  | InsertOne _ _ _ s | UpdateOne _ _ _ _ s | DeleteOne _ _ _ s => Some s
  | Connect | StartSession => None
  end.

(** A write item with its selector replaced. *)
Definition with_index (selector : option Doc) (c : Collector) : Collector :=
  {| collectionName := collectionName c;
     data := {| index := selector; insert := insert (data c) |} |}.

Definition is_resolved (o : Outcome) : bool :=
  match o with
  | Resolves => true
  | Rejects _ | Throws _ => false
  end.

(** The write calls of a list of events whose promise was fulfilled. *)
Fixpoint fulfilled_writes (evs : list Event) : list Call :=
  match evs with
  | [] => []
  | ev :: rest =>
      if is_write (call ev) && is_resolved (outcome ev)
      then call ev :: fulfilled_writes rest
      else fulfilled_writes rest
  end.

(** Two backends that a caller who drops the promises of the write calls
    cannot tell apart: after the same calls they answer every session
    call alike, and a write call throws on the one exactly when it throws
    on the other, with the same error. *)
Definition same_control (b b' : Backend) : Prop :=
  ∀ h h' c,
    calls h = calls h' →
    if is_write c
    then ∀ e, b h c = Throws e ↔ b' h' c = Throws e
    else b h c = b' h' c.

(** Two runs that complete alike after the same calls. *)
Definition same_run {A} (x y : Completion A * History) : Prop :=
  x.1 = y.1 ∧ calls x.2 = calls y.2.

(** A driver call never throws on the backend, whatever came before. *)
Definition never_throws (b : Backend) (c : Call) : Prop :=
  ∀ h e, b h c ≠ Throws e.

(** ** A reference server *)

Section ReferenceServer.

Context `{EqDecision value}.

(** Modelled from the spec: the collections of the databases behind the
    driver, which is not part of the sources; the documents of a
    collection are kept in their natural order. *)
Definition Store : Type := gmap (string * string) (list Doc).

Definition documents (st : Store) (db coll : string) : list Doc :=
  default [] (st !! (db, coll)).

(** Modelled from the spec: a selector is a mapping of field names to
    values, and a document matches it when it has every field of the
    selector with that value. *)
Definition matches (filter doc : Doc) : bool :=
  bool_decide (map_Forall (λ k v, doc !! k = Some v) filter).

(** Modelled from the spec: [updateOne(selector, {$set: payload})]
    merges the payload into the first document that matches, the fields of
    the payload winning, and leaves every other document alone. *)
Fixpoint set_first_match (filter fields : Doc) (docs : list Doc) : list Doc :=
  match docs with
  | [] => []
  | d :: rest =>
      if matches filter d then (fields ∪ d) :: rest
      else d :: set_first_match filter fields rest
  end.

(** Modelled from the spec: [deleteOne(selector)] removes the first
    document that matches. *)
Fixpoint remove_first_match (filter : Doc) (docs : list Doc) : list Doc :=
  match docs with
  | [] => []
  | d :: rest =>
      if matches filter d then rest else d :: remove_first_match filter rest
  end.

(** [d'] is [d] with the fields of [fields] set and every other field
    kept. *)
Definition merged (fields d d' : Doc) : Prop :=
  ∀ k, d' !! k = match fields !! k with
                 | Some v => Some v
                 | None => d !! k
                 end.

(** [docs'] is [docs] with the first document that matches [filter], if
    there is one, merged with [fields]. *)
Definition first_match_merged (filter fields : Doc)
    (docs docs' : list Doc) : Prop :=
  (Forall (λ d, matches filter d = false) docs ∧ docs' = docs)
  ∨ ∃ pre d d' post,
      docs = pre ++ d :: post
      ∧ Forall (λ d, matches filter d = false) pre
      ∧ matches filter d = true
      ∧ merged fields d d'
      ∧ docs' = pre ++ d' :: post.

(** [docs'] is [docs] without the first document that matches [filter],
    if there is one. *)
Definition first_match_removed (filter : Doc)
    (docs docs' : list Doc) : Prop :=
  (Forall (λ d, matches filter d = false) docs ∧ docs' = docs)
  ∨ ∃ pre d post,
      docs = pre ++ d :: post
      ∧ Forall (λ d, matches filter d = false) pre
      ∧ matches filter d = true
      ∧ docs' = pre ++ post.

(** Modelled from the spec: the effect of one write call on the
    collections; [insertOne] adds the document at the end. *)
Definition apply_write (st : Store) (c : Call) : Store :=
  match c with
  | InsertOne db coll doc _ =>
      <[(db, coll) := documents st db coll ++ [doc]]> st
  | UpdateOne db coll filter (DollarSet fields) _ =>
      <[(db, coll) := set_first_match filter fields (documents st db coll)]> st
  | DeleteOne db coll filter _ =>
      <[(db, coll) := remove_first_match filter (documents st db coll)]> st
  | _ => st
  end.

(** Modelled from the spec: the server keeps the committed collections,
    which every reader sees, and for each session with an active
    transaction the writes staged in it. *)
Record Server := {
  committed : Store;
  staged : gmap nat (list Call)
}.

(** Modelled from the spec: a write that resolves inside a transaction is
    staged, a failed write leaves nothing behind, a commit that resolves
    applies the staged writes in order, and an abort discards them. *)
Definition serve (sv : Server) (ev : Event) : Server :=
  match call ev, outcome ev with
  | StartTransaction s, (Resolves | Rejects _) =>
      {| committed := committed sv;
         staged := <[sid s := []]> (staged sv) |}
  | (InsertOne _ _ _ s | UpdateOne _ _ _ _ s | DeleteOne _ _ _ s) as c,
    Resolves =>
      match staged sv !! sid s with
      | Some ws =>
          {| committed := committed sv;
             staged := <[sid s := ws ++ [c]]> (staged sv) |}
      | None =>
          {| committed := apply_write (committed sv) c;
             staged := staged sv |}
      end
  | CommitTransaction s, Resolves =>
      match staged sv !! sid s with
      | Some ws =>
          {| committed := foldl apply_write (committed sv) ws;
             staged := base.delete (sid s) (staged sv) |}
      | None => sv
      end
  | AbortTransaction s, _ =>
      {| committed := committed sv;
         staged := base.delete (sid s) (staged sv) |}
  | _, _ => sv
  end.

(** What a reader sees after the calls of a history, from the
    collections [st]. *)
Definition visible (st : Store) (h : History) : Store :=
  committed (foldl serve {| committed := st; staged := ∅ |} h).

End ReferenceServer.

End Coordinator.

(** ** [getInstance] and the constructor (lines 47-61) *)

Section Singleton.

Context {error : Type}.

(** What [new MongoClient(uri)] throws for a connection string, if it
    throws: the driver parses the string in its constructor, and the
    driver is not part of the sources. *)
Variable rejects : string → option error.

Definition new_MongoClient (connectionString : string)
    : Completion MongoClient :=
  match rejects connectionString with
  | Some e => Thrown e
  | None => Normal {| uri := connectionString |}
  end.

(** [private constructor(private mongodbUri: string)], lines 47-49: the
    parameter property is assigned, then the client is built; when the
    client cannot be built the constructor throws. *)
Definition new_Transaction (mongodbUri : string) (st : Statics)
    : Completion Transaction * Statics :=
  (match new_MongoClient mongodbUri with
   | Normal c =>
       Normal {| oid := constructed st;
                 mongodbUri := mongodbUri;
                 client := c |}
   | Thrown e => Thrown e
   end,
   {| instance := instance st; constructed := S (constructed st) |}).

(** [public static getInstance(mongodbUri)], lines 56-61: when the
    constructor throws, the assignment to [Transaction.instance] does not
    take place. *)
Definition getInstance (mongodbUri : string) (st : Statics)
    : Completion Transaction * Statics :=
  match instance st with
  | None =>
      match new_Transaction mongodbUri st with
      | (Normal t, st') =>
          (Normal t, {| instance := Some t; constructed := constructed st' |})
      | (Thrown e, st') => (Thrown e, st')
      end
  | Some t => (Normal t, st)
  end.

(** A sequence of calls of [getInstance], one per connection string, by
    a caller that goes on after a call that throws. *)
Fixpoint getInstances (uris : list string) (st : Statics)
    : list (Completion Transaction) * Statics :=
  match uris with
  | [] => ([], st)
  | u :: rest =>
      let '(r, st') := getInstance u st in
      let '(rs, st'') := getInstances rest st' in
      (r :: rs, st'')
  end.

(** The singleton as a law on two connection strings, whatever they are:
    after [getInstance(u1)], a call [getInstance(u2)] returns an instance
    configured with [u1]. *)
Definition later_call_returns_first (u1 u2 : string) (st : Statics) : Prop :=
  ∃ t, (getInstance u2 (getInstance u1 st).2).1 = Normal t
       ∧ mongodbUri t = u1
       ∧ client t = {| uri := u1 |}.

End Singleton.

(** ** Scenarios *)

Module Scenario.

Definition all_resolve : @Backend string string := λ _ _, Resolves.

(** A backend on which every [deleteOne] fails with a rejected promise. *)
Definition deleteOne_rejects : @Backend string string :=
  λ _ c, match c with
         | DeleteOne _ _ _ _ => Rejects "write failed"
         | _ => Resolves
         end.

(** A backend on which every [updateOne] fails with a rejected promise. *)
Definition updateOne_rejects : @Backend string string :=
  λ _ c, match c with
         | UpdateOne _ _ _ _ _ => Rejects "write failed"
         | _ => Resolves
         end.

(** A backend on which every [updateOne] throws on the spot. *)
Definition updateOne_throws : @Backend string string :=
  λ _ c, match c with
         | UpdateOne _ _ _ _ _ => Throws "write failed"
         | _ => Resolves
         end.

(** A backend on which every [insertOne] throws on the spot. *)
Definition insertOne_throws : @Backend string string :=
  λ _ c, match c with
         | InsertOne _ _ _ _ => Throws "write failed"
         | _ => Resolves
         end.

(** A backend on which the commit fails. *)
Definition commit_rejects : @Backend string string :=
  λ _ c, match c with
         | CommitTransaction _ => Rejects "commit failed"
         | _ => Resolves
         end.

(** A backend on which the commit fails and the abort after it too. *)
Definition commit_and_abort_reject : @Backend string string :=
  λ _ c, match c with
         | CommitTransaction _ => Rejects "commit failed"
         | AbortTransaction _ => Rejects "abort failed"
         | _ => Resolves
         end.

Definition ann : @Doc string := {[ "name" := "Ann" ]}.
Definition orphan : @Doc string := {[ "id" := "missing" ]}.
Definition status_pending : @Doc string := {[ "status" := "pending" ]}.
Definition status_done : @Doc string := {[ "status" := "done" ]}.

Definition insert_ann : @Collector string :=
  {| collectionName := "User";
     data := {| index := None; insert := Some ann |} |}.

Definition delete_orphan : @Collector string :=
  {| collectionName := "Orphan";
     data := {| index := Some orphan; insert := None |} |}.

Definition finish_pending : @Collector string :=
  {| collectionName := "User";
     data := {| index := Some status_pending; insert := Some status_done |} |}.

(** An insert item without payload: the first branch of
    [CollectionData] admits it. *)
Definition no_payload : @Collector string :=
  {| collectionName := "User";
     data := {| index := Some ∅; insert := None |} |}.

(** The abort scenario of the specification. *)
Definition abort_scenario : list (@Operation string) :=
  [ {| operationType := "CREATE"; collectors := [insert_ann] |};
    {| operationType := "DELETE"; collectors := [delete_orphan] |} ].


Definition update_scenario : list (@Operation string) :=
  [ {| operationType := "UPDATE"; collectors := [finish_pending] |} ].

Definition create_scenario : list (@Operation string) :=
  [ {| operationType := "CREATE"; collectors := [insert_ann] |} ].

Definition create_without_payload : list (@Operation string) :=
  [ {| operationType := "CREATE"; collectors := [no_payload] |} ].

(** An operation whose type is not a member of the enum. *)
Definition upsert : @Operation string :=
  {| operationType := "UPSERT"; collectors := [finish_pending] |}.

(** A backend to which no connection can be made. *)
Definition connect_rejects : @Backend string string :=
  λ _ c, match c with
         | Connect => Rejects "no connection"
         | _ => Resolves
         end.

(** A backend on which no transaction can be started. *)
Definition startTransaction_throws : @Backend string string :=
  λ _ c, match c with
         | StartTransaction _ => Throws "no transactions"
         | _ => Resolves
         end.

Definition insert_orphan : @Collector string :=
  {| collectionName := "Orphan";
     data := {| index := None; insert := Some orphan |} |}.

Definition delete_operation : @Operation string :=
  {| operationType := "DELETE"; collectors := [delete_orphan] |}.

Definition update_operation : @Operation string :=
  {| operationType := "UPDATE"; collectors := [finish_pending] |}.

(** A collector with a payload and no selector: the second branch of
    [CollectionData] admits it. *)
Definition only_payload : @Collector string :=
  {| collectionName := "User";
     data := {| index := None; insert := Some status_done |} |}.

(** A create operation with two collectors. *)
Definition create_two : @Operation string :=
  {| operationType := "CREATE"; collectors := [insert_ann; insert_orphan] |}.

(** A check of connection strings that, like the one of the driver,
    refuses a string that does not start with one of the two schemes of
    MongoDB. *)
Definition scheme_check (connectionString : string) : option string :=
  if String.prefix "mongodb://" connectionString
     || String.prefix "mongodb+srv://" connectionString
  then None
  else Some "Invalid scheme".

(** The history of a process that has made no driver call yet. *)
Definition no_history : @History string string := [].

(** A server without any document. *)
Definition empty_store : gmap (string * string) (list (gmap string string)) :=
  ∅.

(** The session of a run that starts from the empty history. *)
Definition session1 : ClientSession := {| sid := 1 |}.

Definition resolved (c : @Call string) : @Event string string :=
  {| call := c; outcome := Resolves |}.

End Scenario.



(** * Properties *)

Section Properties.

Context {value error : Type}.

Implicit Types (b : @Backend value error) (h : @History value error).
Implicit Types (c : @Collector value) (op : @Operation value).
Implicit Types (s : ClientSession) (db : string).

(** ** Histories *)

Lemma calls_record b h (k : Call) : calls (record b h k) = calls h ++ [k].
Proof. unfold calls, record. by rewrite map_app. Qed.

Lemma calls_issue b (ks : list Call) h :
  calls (issue b h ks) = calls h ++ ks.
Proof.
  revert h. induction ks as [|k ks IH]; intros h; simpl.
  - by rewrite app_nil_r.
  - rewrite IH, calls_record, <- app_assoc. done.
Qed.

Lemma issue_app b (ks1 ks2 : list Call) h :
  issue b h (ks1 ++ ks2) = issue b (issue b h ks1) ks2.
Proof. unfold issue. apply foldl_app. Qed.

(** ** Runs on a backend that does not throw *)

Lemma for_collectors_run b (f : Collector → Call) (cs : list Collector) h :
  no_sync_throw b →
  for_collectors b f cs h = (Normal tt, issue b h (map f cs)).
Proof.
  intros Hb. revert h.
  induction cs as [|c cs IH]; intros h; [done|].
  simpl. unfold bind at 1. unfold invoke.
  destruct (b h (f c)) as [|e|e] eqn:Hc; [apply IH..|].
  by destruct (Hb h (f c) e).
Qed.

Lemma dispatch_run b db op s h :
  no_sync_throw b →
  dispatch b db op s h = (Normal tt, issue b h (writes_of db s op)).
Proof.
  intros Hb. unfold dispatch, writes_of, OperationType.of_string.
  repeat case_decide; try done.
  - unfold bind, create, async. by rewrite for_collectors_run.
  - by apply for_collectors_run.
  - by apply for_collectors_run.
Qed.

Lemma for_operations_run b db (ops : list Operation) s h :
  no_sync_throw b →
  for_operations b db ops s h
  = (Normal tt, issue b h (flat_map (writes_of db s) ops)).
Proof.
  intros Hb. revert h.
  induction ops as [|op ops IH]; intros h; [done|].
  simpl. unfold bind at 1. rewrite dispatch_run by done.
  rewrite IH. by rewrite issue_app.
Qed.

Lemma createTransaction_run b db (ops : list Operation) h0 :
  no_sync_throw b → session_calls_resolve b →
  createTransaction b db ops h0
  = (Normal tt,
     issue b h0 ([Connect; StartSession; StartTransaction (session_from h0)]
                 ++ flat_map (writes_of db (session_from h0)) ops
                 ++ [CommitTransaction (session_from h0)])).
Proof.
  intros Hb Hs. unfold createTransaction, await, bind at 1 2, invoke at 1.
  rewrite (Hs h0 Connect) by done. simpl.
  unfold bind at 1, startSession.
  rewrite (Hs _ StartSession) by done.
  unfold bind at 1, invoke at 1.
  replace (length (record b h0 Connect)) with (S (length h0))
    by (unfold record; rewrite length_app; simpl; lia).
  fold (session_from h0).
  rewrite (Hs _ (StartTransaction _)) by done.
  unfold try_catch, bind at 1. rewrite for_operations_run by done.
  unfold bind, invoke. rewrite (Hs _ (CommitTransaction _)) by done.
  simpl. by rewrite !issue_app.
Qed.

Lemma write_call_is_write (ty : OperationType.t) db s c :
  is_write (write_call ty db s c) = true.
Proof. by destruct ty. Qed.

Lemma writes_of_are_writes db s op :
  Forall (λ w : @Call value, is_write w = true) (writes_of db s op).
Proof.
  unfold writes_of. destruct (OperationType.of_string _); [|constructor].
  apply Forall_forall. intros w Hw. apply list_elem_of_In in Hw.
  apply in_map_iff in Hw as (c & <- & _). apply write_call_is_write.
Qed.

Lemma flat_map_writes_of_are_writes db s (ops : list Operation) :
  Forall (λ w : @Call value, is_write w = true)
         (flat_map (writes_of db s) ops).
Proof.
  induction ops as [|op ops IH]; simpl; [constructor|].
  apply Forall_app. split; [apply writes_of_are_writes | done].
Qed.

(** On a backend that does not throw and whose session calls resolve,
    every item of every operation with a known type gets its driver call,
    inside the transaction of the run. *)
Lemma item_in_transaction b db (ops1 ops2 : list Operation) op
    (ty : OperationType.t) (cs1 cs2 : list Collector) c h0 :
  no_sync_throw b → session_calls_resolve b →
  OperationType.of_string (operationType op) = Some ty →
  collectors op = cs1 ++ c :: cs2 →
  ∃ h, createTransaction b db (ops1 ++ op :: ops2) h0 = (Normal tt, h)
       ∧ in_transaction h0 h (session_from h0)
                        (write_call ty db (session_from h0) c).
Proof.
  intros Hb Hs Hty Hcs. rewrite createTransaction_run by done.
  eexists; split; [done|].
  set (s := session_from h0).
  exists (flat_map (writes_of db s) ops1 ++ map (write_call ty db s) cs1),
         (map (write_call ty db s) cs2 ++ flat_map (writes_of db s) ops2).
  split.
  - rewrite calls_issue, flat_map_app. simpl.
    unfold writes_of at 2. rewrite Hty, Hcs, map_app. simpl.
    by rewrite <- !app_assoc.
  - rewrite !Forall_app. repeat split.
    + apply flat_map_writes_of_are_writes.
    + apply Forall_forall. intros w Hw. apply list_elem_of_In in Hw.
      apply in_map_iff in Hw as (c' & <- & _). apply write_call_is_write.
    + apply Forall_forall. intros w Hw. apply list_elem_of_In in Hw.
      apply in_map_iff in Hw as (c' & <- & _). apply write_call_is_write.
    + apply flat_map_writes_of_are_writes.
Qed.

Lemma made_app h0 h (ks : list (@Call value)) :
  calls h = calls h0 ++ ks → made h0 h = ks.
Proof.
  intros Hh. unfold made. rewrite Hh.
  replace (length h0) with (length (calls h0))
    by (unfold calls; apply length_map).
  apply drop_app_length.
Qed.

(** A run that resolves on such a backend does not call
    [abortTransaction]. *)
Lemma in_transaction_no_abort h0 h s (k : @Call value) :
  is_write k = true →
  in_transaction h0 h s k →
  ∀ s', AbortTransaction s' ∉ made h0 h.
Proof.
  intros Hk (before & after & Hh & Hw) s' Hin.
  rewrite (made_app _ _ _ Hh) in Hin.
  apply Forall_app in Hw as [Hbefore Hafter].
  rewrite Forall_forall in Hbefore. rewrite Forall_forall in Hafter.
  repeat (apply elem_of_app in Hin as [Hin|Hin]
          || apply elem_of_cons in Hin as [Hin|Hin]);
    try discriminate Hin; try (by apply elem_of_nil in Hin).
  - by apply Hbefore in Hin.
  - by rewrite <- Hin in Hk.
  - by apply Hafter in Hin.
Qed.

(** ** Operations outside the enum *)

Lemma dispatch_unknown b db op s h :
  OperationType.of_string (operationType op) = None →
  dispatch b db op s h = (Normal tt, h).
Proof.
  unfold dispatch, OperationType.of_string.
  by repeat case_decide.
Qed.

Lemma for_operations_skip b db (ops1 ops2 : list Operation) op s h :
  OperationType.of_string (operationType op) = None →
  for_operations b db (ops1 ++ op :: ops2) s h
  = for_operations b db (ops1 ++ ops2) s h.
Proof.
  intros Hop. revert h.
  induction ops1 as [|op1 ops1 IH]; intros h; simpl.
  - unfold bind at 1. by rewrite dispatch_unknown.
  - unfold bind. destruct (dispatch b db op1 s h) as [[[]|e] h']; [apply IH|done].
Qed.

(** The body of [createTransaction] only depends on the operations
    through the loop over them. *)
Lemma createTransaction_ext b db (ops ops' : list Operation) h0 :
  (∀ s h, for_operations b db ops s h = for_operations b db ops' s h) →
  createTransaction b db ops h0 = createTransaction b db ops' h0.
Proof.
  intros Hloop. unfold createTransaction, bind, try_catch.
  destruct (await _ h0) as [[[]|e] h1]; [|done].
  destruct (startSession b h1) as [[s|e] h2]; [|done].
  destruct (invoke b (StartTransaction s) h2) as [[p|e] h3]; [|done].
  by rewrite Hloop.
Qed.

(** ** Absent fields *)

Lemma write_call_fill (ty : OperationType.t) db s c :
  write_call ty db s (fill_collector c) = write_call ty db s c.
Proof. by destruct ty. Qed.

Lemma for_collectors_ext b (f g : Collector → Call)
    (cs cs' : list Collector) h :
  map f cs = map g cs' →
  for_collectors b f cs h = for_collectors b g cs' h.
Proof.
  revert cs' h. induction cs as [|c cs IH]; intros [|c' cs'] h Heq;
    try done.
  simpl in *. injection Heq as Hc Hcs. unfold bind, invoke.
  rewrite Hc. destruct (b h (g c')); [by apply IH..|done].
Qed.

Lemma dispatch_ext b db op op' s h :
  operationType op = operationType op' →
  (∀ ty, OperationType.of_string (operationType op) = Some ty →
         map (write_call ty db s) (collectors op)
         = map (write_call ty db s) (collectors op')) →
  dispatch b db op s h = dispatch b db op' s h.
Proof.
  intros Hty Hcs. unfold dispatch. rewrite <- Hty.
  unfold OperationType.of_string in Hcs.
  repeat case_decide; try done.
  - unfold bind, create, async.
    by rewrite (for_collectors_ext b _ (insertOne_call db s) _ (collectors op'))
      by apply (Hcs OperationType.Create eq_refl).
  - apply for_collectors_ext, (Hcs OperationType.Update eq_refl).
  - apply for_collectors_ext, (Hcs OperationType.Delete eq_refl).
Qed.

Lemma for_operations_ext b db (ops ops' : list Operation) s h :
  Forall2 (λ op op',
             operationType op = operationType op'
             ∧ ∀ ty, OperationType.of_string (operationType op) = Some ty →
                     map (write_call ty db s) (collectors op)
                     = map (write_call ty db s) (collectors op'))
          ops ops' →
  for_operations b db ops s h = for_operations b db ops' s h.
Proof.
  intros Hops. revert h.
  induction Hops as [|op op' ops ops' [Hty Hcs] _ IH]; intros h; [done|].
  simpl. unfold bind. rewrite (dispatch_ext b db op op') by done.
  destruct (dispatch b db op' s h) as [[[]|e] h']; [apply IH|done].
Qed.

Lemma dispatch_fill b db op s h :
  dispatch b db (fill_operation op) s h = dispatch b db op s h.
Proof.
  apply dispatch_ext; [done|]. intros ty _. simpl.
  rewrite map_map. apply map_ext. intros c. apply write_call_fill.
Qed.

Lemma createTransaction_fill b db (ops : list Operation) h0 :
  createTransaction b db (map fill_operation ops) h0
  = createTransaction b db ops h0.
Proof.
  apply createTransaction_ext. intros s h.
  apply for_operations_ext.
  induction ops as [|op ops IH]; constructor; [|done].
  split; [done|]. intros ty _. simpl.
  rewrite map_map. apply map_ext. intros c. apply write_call_fill.
Qed.

(** Replacing one operation by another that has the same type and gives
    the same driver calls does not change the run. *)
Lemma createTransaction_replace b db (ops1 ops2 : list Operation) op op' h0 :
  operationType op = operationType op' →
  (∀ s ty, OperationType.of_string (operationType op) = Some ty →
           map (write_call ty db s) (collectors op)
           = map (write_call ty db s) (collectors op')) →
  createTransaction b db (ops1 ++ op :: ops2) h0
  = createTransaction b db (ops1 ++ op' :: ops2) h0.
Proof.
  intros Hty Hcs. apply createTransaction_ext. intros s h.
  apply for_operations_ext.
  apply Forall2_app; [|constructor; [by auto|]];
    apply Forall_Forall2_diag, Forall_true; by intros.
Qed.

(** ** The reference server *)

Section ReferenceServerFacts.

Context `{EqDecision value}.

Implicit Types (st : gmap (string * string) (list (gmap string value))).
Implicit Types (d fields filter : gmap string value).

Lemma merged_union fields d : merged fields d (fields ∪ d).
Proof.
  intros k. unfold Doc. rewrite lookup_union.
  by destruct (fields !! k), (d !! k).
Qed.

Lemma set_first_match_spec filter fields (docs : list Doc) :
  first_match_merged filter fields docs
                     (set_first_match filter fields docs).
Proof.
  induction docs as [|d docs IH]; simpl.
  - left. by split.
  - destruct (matches filter d) eqn:Hd.
    + right. exists [], d, (fields ∪ d), docs.
      repeat split; try done. apply merged_union.
    + destruct IH as [[Hnone ->]|(pre & d0 & d' & post & -> & Hpre & Hd0 & Hm & ->)].
      * left. split; [by constructor | done].
      * right. exists (d :: pre), d0, d', post.
        repeat split; try done. by constructor.
Qed.

Lemma remove_first_match_spec filter (docs : list Doc) :
  first_match_removed filter docs (remove_first_match filter docs).
Proof.
  induction docs as [|d docs IH]; simpl.
  - left. by split.
  - destruct (matches filter d) eqn:Hd.
    + right. by exists [], d, docs.
    + destruct IH as [[Hnone Heq]|(pre & d0 & post & -> & Hpre & Hd0 & Heq)].
      * left. split; [by constructor | by rewrite Heq].
      * right. exists (d :: pre), d0, post.
        repeat split; try done; [by constructor | by rewrite Heq].
Qed.

Lemma documents_insert st (db coll db' coll' : string) (l : list Doc) :
  documents (<[(db, coll) := l]> st) db' coll'
  = if decide ((db, coll) = (db', coll')) then l else documents st db' coll'.
Proof.
  unfold documents.
  rewrite (lookup_insert (M:=gmap (string * string)) st (db, coll)).
  by case_decide.
Qed.

Lemma apply_write_elsewhere st (w : Call) (db coll db' coll' : string) s :
  (∃ doc, w = InsertOne db coll doc s)
  ∨ (∃ filter u, w = UpdateOne db coll filter u s)
  ∨ (∃ filter, w = DeleteOne db coll filter s) →
  (db', coll') ≠ (db, coll) →
  documents (apply_write st w) db' coll' = documents st db' coll'.
Proof.
  intros [[doc ->]|[(filter & [fields] & ->)|[filter ->]]] Hne; simpl;
    rewrite documents_insert; by case_decide.
Qed.

End ReferenceServerFacts.

(** ** Runs of [createTransaction] *)




(** C7: with an empty list of operations the run makes the four session
    calls and no write call, the last of them the commit, and resolves. *)
Theorem empty_operations_commit b db h0 :
  session_calls_resolve b →
  createTransaction b db [] h0
  = (Normal tt,
     h0 ++ [ {| call := Connect; outcome := Resolves |};
             {| call := StartSession; outcome := Resolves |};
             {| call := StartTransaction (session_from h0);
                outcome := Resolves |};
             {| call := CommitTransaction (session_from h0);
                outcome := Resolves |} ]).
Proof.
  intros Hs. unfold createTransaction, await, bind at 1 2, invoke at 1.
  rewrite (Hs h0 Connect) by done. simpl.
  unfold bind at 1, startSession.
  rewrite (Hs _ StartSession) by done.
  unfold bind at 1, invoke at 1.
  replace (length (record b h0 Connect)) with (S (length h0))
    by (unfold record; rewrite length_app; simpl; lia).
  fold (session_from h0).
  rewrite (Hs _ (StartTransaction _)) by done.
  unfold try_catch, bind, invoke. simpl.
  rewrite (Hs _ (CommitTransaction _)) by done.
  unfold record.
  rewrite (Hs h0 Connect), (Hs _ StartSession),
    (Hs _ (StartTransaction _)), (Hs _ (CommitTransaction _)) by done.
  by rewrite <- !app_assoc.
Qed.

(** C9: an operation whose type is none of the three strings of the enum
    is skipped: its dispatch makes no call and raises nothing, the run is
    the run of the list without it, and on a backend that does not throw
    and whose session calls resolve that run ends with the commit. *)
Theorem unknown_operation_skipped b db (ops1 ops2 : list Operation) op h0 :
  operationType op ≠ OperationType.to_string OperationType.Create →
  operationType op ≠ OperationType.to_string OperationType.Update →
  operationType op ≠ OperationType.to_string OperationType.Delete →
  (∀ s h, dispatch b db op s h = (Normal tt, h))
  ∧ createTransaction b db (ops1 ++ op :: ops2) h0
    = createTransaction b db (ops1 ++ ops2) h0
  ∧ (no_sync_throw b → session_calls_resolve b →
     ∃ h, createTransaction b db (ops1 ++ op :: ops2) h0 = (Normal tt, h)
          ∧ last (calls h) = Some (CommitTransaction (session_from h0))).
Proof.
  intros Hc Hu Hd.
  assert (OperationType.of_string (operationType op) = None) as Hnone.
  { unfold OperationType.of_string. by repeat case_decide. }
  split; [|split].
  - intros s h. by apply dispatch_unknown.
  - apply createTransaction_ext. intros s h. by apply for_operations_skip.
  - intros Hb Hs. rewrite createTransaction_run by done.
    eexists; split; [done|].
    rewrite calls_issue, !app_assoc. apply last_snoc.
Qed.

(** C10: a collector of a create operation whose [insert] is absent does
    not make the run fail: [insertOne] is called for it with the empty
    document, in its collection and inside the transaction, and on the
    reference server that call adds an empty document. *)
Theorem create_without_insert `{EqDecision value} b db
    (ops1 ops2 : list Operation) (cs1 cs2 : list Collector) c h0
    (st : gmap (string * string) (list (gmap string value))) :
  no_sync_throw b → session_calls_resolve b →
  insert (data c) = None →
  ∃ h,
    createTransaction b db
      (ops1 ++ {| operationType :=
                    OperationType.to_string OperationType.Create;
                  collectors := cs1 ++ c :: cs2 |} :: ops2) h0
    = (Normal tt, h)
    ∧ in_transaction h0 h (session_from h0)
        (InsertOne db (collectionName c) ∅ (session_from h0))
    ∧ documents
        (apply_write st (InsertOne db (collectionName c) ∅ (session_from h0)))
        db (collectionName c)
      = documents st db (collectionName c) ++ [∅].
Proof.
  intros Hb Hs Hc.
  destruct (item_in_transaction b db ops1 ops2
              {| operationType := OperationType.to_string OperationType.Create;
                 collectors := cs1 ++ c :: cs2 |}
              OperationType.Create cs1 cs2 c h0) as (h & Hrun & Hin);
    try done.
  exists h. split; [done|]. split.
  - simpl in Hin. unfold insertOne_call in Hin. by rewrite Hc in Hin.
  - simpl. rewrite documents_insert. by case_decide.
Qed.

(** C4: every collector of an update operation gets one [updateOne]
    call on its collection, with the selector as filter, the payload
    under [$set] and the session of the run, made inside the transaction;
    on the reference server that call merges the payload into the first
    matching document only, and touches no other collection. *)
Theorem update_item_sets_first_match `{EqDecision value} b db
    (ops1 ops2 : list Operation) (cs1 cs2 : list Collector) c h0
    (st : gmap (string * string) (list (gmap string value))) :
  no_sync_throw b → session_calls_resolve b →
  ∃ h,
    createTransaction b db
      (ops1 ++ {| operationType :=
                    OperationType.to_string OperationType.Update;
                  collectors := cs1 ++ c :: cs2 |} :: ops2) h0
    = (Normal tt, h)
    ∧ in_transaction h0 h (session_from h0)
        (UpdateOne db (collectionName c) (spread (index (data c)))
                   (DollarSet (spread (insert (data c)))) (session_from h0))
    ∧ first_match_merged
        (spread (index (data c))) (spread (insert (data c)))
        (documents st db (collectionName c))
        (documents
           (apply_write st
              (UpdateOne db (collectionName c) (spread (index (data c)))
                         (DollarSet (spread (insert (data c))))
                         (session_from h0)))
           db (collectionName c))
    ∧ ∀ db' coll',
        (db', coll') ≠ (db, collectionName c) →
        documents
          (apply_write st
             (UpdateOne db (collectionName c) (spread (index (data c)))
                        (DollarSet (spread (insert (data c))))
                        (session_from h0)))
          db' coll'
        = documents st db' coll'.
Proof.
  intros Hb Hs.
  destruct (item_in_transaction b db ops1 ops2
              {| operationType := OperationType.to_string OperationType.Update;
                 collectors := cs1 ++ c :: cs2 |}
              OperationType.Update cs1 cs2 c h0) as (h & Hrun & Hin);
    try done.
  exists h. repeat split; try done.
  - simpl. rewrite documents_insert. case_decide; [|done].
    apply set_first_match_spec.
  - intros db' coll' Hne. eapply apply_write_elsewhere; [|done].
    right; left. by eexists _, _.
Qed.

(** C5: every collector of a delete operation gets one [deleteOne] call
    on its collection, with the selector as filter and the session of the
    run, made inside the transaction; the [insert] field of the collector
    does not change the run; on the reference server the call removes the
    first matching document only, and touches no other collection. *)
Theorem delete_item_removes_first_match `{EqDecision value} b db
    (ops1 ops2 : list Operation) (cs1 cs2 : list Collector) c h0
    (payload : option Doc)
    (st : gmap (string * string) (list (gmap string value))) :
  no_sync_throw b → session_calls_resolve b →
  ∃ h,
    createTransaction b db
      (ops1 ++ {| operationType :=
                    OperationType.to_string OperationType.Delete;
                  collectors := cs1 ++ c :: cs2 |} :: ops2) h0
    = (Normal tt, h)
    ∧ in_transaction h0 h (session_from h0)
        (DeleteOne db (collectionName c) (spread (index (data c)))
                   (session_from h0))
    ∧ createTransaction b db
        (ops1 ++ {| operationType :=
                      OperationType.to_string OperationType.Delete;
                    collectors := cs1 ++ with_insert payload c :: cs2 |}
              :: ops2) h0
      = (Normal tt, h)
    ∧ first_match_removed
        (spread (index (data c)))
        (documents st db (collectionName c))
        (documents
           (apply_write st
              (DeleteOne db (collectionName c) (spread (index (data c)))
                         (session_from h0)))
           db (collectionName c))
    ∧ ∀ db' coll',
        (db', coll') ≠ (db, collectionName c) →
        documents
          (apply_write st
             (DeleteOne db (collectionName c) (spread (index (data c)))
                        (session_from h0)))
          db' coll'
        = documents st db' coll'.
Proof.
  intros Hb Hs.
  destruct (item_in_transaction b db ops1 ops2
              {| operationType := OperationType.to_string OperationType.Delete;
                 collectors := cs1 ++ c :: cs2 |}
              OperationType.Delete cs1 cs2 c h0) as (h & Hrun & Hin);
    try done.
  exists h. repeat split; try done.
  - rewrite <- Hrun. symmetry. apply createTransaction_replace; [done|].
    intros s ty' Hty. simpl in *. injection Hty as <-.
    by rewrite !map_app.
  - simpl. rewrite documents_insert. case_decide; [|done].
    apply remove_first_match_spec.
  - intros db' coll' Hne. eapply apply_write_elsewhere; [|done].
    right; right. by eexists.
Qed.

(** C3, as amended: nothing validates a write item.  An item that lacks
    the selector or payload its operation type needs is dispatched as if
    the absent field were the empty document: the run is the run with the
    absent fields filled in, the driver call of the item is made inside
    the transaction, the run resolves and [abortTransaction] is not
    called. *)
Theorem malformed_item_dispatched b db (ops1 ops2 : list Operation) op
    (ty : OperationType.t) (cs1 cs2 : list Collector) c h0 :
  no_sync_throw b → session_calls_resolve b →
  OperationType.of_string (operationType op) = Some ty →
  collectors op = cs1 ++ c :: cs2 →
  malformed (operationType op) c →
  createTransaction b db (map fill_operation (ops1 ++ op :: ops2)) h0
  = createTransaction b db (ops1 ++ op :: ops2) h0
  ∧ write_call ty db (session_from h0) c
    = write_call ty db (session_from h0) (fill_collector c)
  ∧ ∃ h,
      createTransaction b db (ops1 ++ op :: ops2) h0 = (Normal tt, h)
      ∧ in_transaction h0 h (session_from h0)
                       (write_call ty db (session_from h0) c)
      ∧ ∀ s, AbortTransaction s ∉ made h0 h.
Proof.
  intros Hb Hs Hty Hcs _.
  split; [apply createTransaction_fill|].
  split; [by rewrite write_call_fill|].
  destruct (item_in_transaction b db ops1 ops2 op ty cs1 cs2 c h0)
    as (h & Hrun & Hin); try done.
  exists h. repeat split; try done.
  eapply in_transaction_no_abort; [apply write_call_is_write|done].
Qed.

(** ** Runs on any backend *)

Lemma issue_events b (ks : list Call) h :
  ∃ evs, issue b h ks = h ++ evs ∧ map call evs = ks.
Proof.
  revert h. induction ks as [|k ks IH]; intros h; simpl.
  - exists []. by rewrite app_nil_r.
  - destruct (IH (record b h k)) as (evs & -> & <-).
    exists ({| call := k; outcome := b h k |} :: evs).
    unfold record. by rewrite <- app_assoc.
Qed.

(** The loop over the collectors makes the calls of a prefix of the
    list: it stops at the first call that throws. *)
Lemma for_collectors_made b (f : Collector → Call) (cs : list Collector) h :
  ∃ ks, (for_collectors b f cs h).2 = issue b h ks
        ∧ ks `prefix_of` map f cs.
Proof.
  revert h. induction cs as [|c cs IH]; intros h.
  - exists []. split; [done | by exists []].
  - simpl. unfold bind at 1. unfold invoke.
    destruct (IH (record b h (f c))) as (ks & Hks & Hpre).
    destruct (b h (f c)) as [|e|e] eqn:Hc.
    + exists (f c :: ks). split; [done | by apply prefix_cons].
    + exists (f c :: ks). split; [done | by apply prefix_cons].
    + exists [f c]. split; [done|]. by exists (map f cs).
Qed.

Lemma for_collectors_quiet b (f : Collector → Call) (cs : list Collector) h :
  Forall (never_throws b) (map f cs) →
  for_collectors b f cs h = (Normal tt, issue b h (map f cs)).
Proof.
  revert h. induction cs as [|c cs IH]; intros h Hq; [done|].
  simpl in *. apply Forall_cons in Hq as [Hc Hq].
  unfold bind at 1. unfold invoke.
  destruct (b h (f c)) as [|e|e] eqn:Hbc; [by apply IH..|].
  by destruct (Hc h e).
Qed.

Lemma for_collectors_throw b (f : Collector → Call)
    (cs1 cs2 : list Collector) c h (e : error) :
  Forall (never_throws b) (map f cs1) →
  b (issue b h (map f cs1)) (f c) = Throws e →
  for_collectors b f (cs1 ++ c :: cs2) h
  = (Thrown e, issue b h (map f cs1 ++ [f c])).
Proof.
  revert h. induction cs1 as [|c1 cs1 IH]; intros h Hq Hc; simpl in *.
  - unfold bind, invoke. by rewrite Hc.
  - apply Forall_cons in Hq as [Hc1 Hq].
    unfold bind at 1. unfold invoke.
    destruct (b h (f c1)) as [|e1|e1] eqn:Hbc; [by apply IH..|].
    by destruct (Hc1 h e1).
Qed.

Lemma dispatch_made b db op s h :
  ∃ ks, (dispatch b db op s h).2 = issue b h ks
        ∧ ks `prefix_of` writes_of db s op.
Proof.
  unfold dispatch, writes_of, OperationType.of_string.
  repeat case_decide.
  - destruct (for_collectors_made b (insertOne_call db s) (collectors op) h)
      as (ks & Hks & Hpre).
    exists ks. split; [|done].
    unfold bind, create, async.
    by destruct (for_collectors b _ (collectors op) h) as [[[]|e] h'].
  - apply (for_collectors_made b (updateOne_call db s)).
  - apply (for_collectors_made b (deleteOne_call db s)).
  - exists []. split; [done | by exists []].
Qed.

(** A create operation never makes the loop over the operations stop. *)
Lemma dispatch_create_normal b db op s h :
  operationType op = OperationType.to_string OperationType.Create →
  (dispatch b db op s h).1 = Normal tt.
Proof.
  intros Hop. unfold dispatch. rewrite decide_True by done.
  unfold bind, create, async.
  by destruct (for_collectors b _ (collectors op) h) as [[[]|e] h'].
Qed.

Lemma dispatch_quiet b db op s h :
  Forall (never_throws b) (writes_of db s op) →
  dispatch b db op s h = (Normal tt, issue b h (writes_of db s op)).
Proof.
  unfold dispatch, writes_of, OperationType.of_string.
  repeat case_decide; intros Hq; try done.
  - unfold bind, create, async.
    by rewrite (for_collectors_quiet b (insertOne_call db s)).
  - by apply (for_collectors_quiet b (updateOne_call db s)).
  - by apply (for_collectors_quiet b (deleteOne_call db s)).
Qed.

Lemma for_operations_quiet b db (ops : list Operation) s h :
  Forall (never_throws b) (flat_map (writes_of db s) ops) →
  for_operations b db ops s h
  = (Normal tt, issue b h (flat_map (writes_of db s) ops)).
Proof.
  revert h. induction ops as [|op ops IH]; intros h Hq; [done|].
  simpl in *. apply Forall_app in Hq as [Hop Hq].
  unfold bind at 1. rewrite dispatch_quiet by done.
  rewrite IH by done. by rewrite issue_app.
Qed.

(** The loop over the operations makes write calls of the list only, in
    the order of the list. *)
Lemma for_operations_made b db (ops : list Operation) s h :
  ∃ ks, (for_operations b db ops s h).2 = issue b h ks
        ∧ ks `sublist_of` flat_map (writes_of db s) ops.
Proof.
  revert h. induction ops as [|op ops IH]; intros h.
  - exists []. split; [done | constructor].
  - simpl. unfold bind at 1.
    destruct (dispatch_made b db op s h) as (ks1 & Hks1 & [rest Hpre]).
    destruct (dispatch b db op s h) as [[[]|e] h1]; simpl in Hks1; subst h1.
    + destruct (IH (issue b h ks1)) as (ks2 & Hks2 & Hsub).
      exists (ks1 ++ ks2). split; [by rewrite issue_app|].
      rewrite Hpre. apply sublist_app; [|done].
      by apply sublist_inserts_r.
    + exists ks1. split; [done|].
      rewrite Hpre. by do 2 apply sublist_inserts_r.
Qed.

(** ** The exits of [createTransaction] *)

Lemma createTransaction_connect_failed b db (ops : list Operation) h0
    (e : error) :
  b h0 Connect = Rejects e ∨ b h0 Connect = Throws e →
  createTransaction b db ops h0 = (Thrown e, issue b h0 [Connect]).
Proof.
  intros Hc. unfold createTransaction, await, bind, invoke. simpl.
  by destruct Hc as [-> | ->].
Qed.

Lemma createTransaction_startSession_threw b db (ops : list Operation) h0
    (e : error) :
  b h0 Connect = Resolves →
  b (issue b h0 [Connect]) StartSession = Throws e →
  createTransaction b db ops h0
  = (Thrown e, issue b h0 [Connect; StartSession]).
Proof.
  intros Hc Hs. simpl in *.
  unfold createTransaction, await, bind, invoke, startSession.
  rewrite Hc. simpl. by rewrite Hs.
Qed.

Lemma length_record b h (k : Call) : length (record b h k) = S (length h).
Proof. unfold record. rewrite length_app. simpl. lia. Qed.

Lemma createTransaction_startTransaction_threw b db (ops : list Operation)
    h0 (e : error) :
  b h0 Connect = Resolves →
  (∀ e', b (issue b h0 [Connect]) StartSession ≠ Throws e') →
  b (issue b h0 [Connect; StartSession]) (StartTransaction (session_from h0))
  = Throws e →
  createTransaction b db ops h0
  = (Thrown e,
     issue b h0 [Connect; StartSession; StartTransaction (session_from h0)]).
Proof.
  intros Hc Hs Ht. simpl in *.
  unfold createTransaction, await, bind, invoke, startSession.
  rewrite Hc. simpl. rewrite length_record. fold (session_from h0).
  destruct (b (record b h0 Connect) StartSession) as [|e'|e'] eqn:Hss;
    [by rewrite Ht..|].
  by destruct (Hs e').
Qed.

(** Once the transaction is started, the run is the [try] statement. *)
Lemma createTransaction_started b db (ops : list Operation) h0 :
  b h0 Connect = Resolves →
  (∀ e, b (issue b h0 [Connect]) StartSession ≠ Throws e) →
  (∀ e, b (issue b h0 [Connect; StartSession])
          (StartTransaction (session_from h0)) ≠ Throws e) →
  createTransaction b db ops h0
  = try_catch
      (bind (for_operations b db ops (session_from h0))
            (λ _, await (invoke b (CommitTransaction (session_from h0)))))
      (λ err, bind (await (invoke b (AbortTransaction (session_from h0))))
                   (λ _, throw err))
      (issue b h0 [Connect; StartSession;
                   StartTransaction (session_from h0)]).
Proof.
  intros Hc Hs Ht. simpl in *.
  unfold createTransaction, await, bind at 1 2 3 4, invoke at 1 2,
    startSession.
  rewrite Hc. simpl. rewrite length_record. fold (session_from h0).
  destruct (b (record b h0 Connect) StartSession) as [|e'|e'] eqn:Hss;
    [| |by destruct (Hs e')].
  - destruct (b (record b (record b h0 Connect) StartSession)
                (StartTransaction (session_from h0))) as [|e|e] eqn:Hst;
      [done..|by destruct (Ht e)].
  - destruct (b (record b (record b h0 Connect) StartSession)
                (StartTransaction (session_from h0))) as [|e|e] eqn:Hst;
      [done..|by destruct (Ht e)].
Qed.

(** Either the run fails before the [try] statement, with at most the
    three calls that lead to it, or the transaction is started. *)
Lemma createTransaction_startup b db (ops : list Operation) h0 :
  (∃ e ks,
     createTransaction b db ops h0 = (Thrown e, issue b h0 ks)
     ∧ (ks = [Connect] ∨ ks = [Connect; StartSession]
        ∨ (ks = [Connect; StartSession; StartTransaction (session_from h0)]
           ∧ b (issue b h0 [Connect; StartSession])
               (StartTransaction (session_from h0)) = Throws e)))
  ∨ (b h0 Connect = Resolves
     ∧ (∀ e, b (issue b h0 [Connect]) StartSession ≠ Throws e)
     ∧ (∀ e, b (issue b h0 [Connect; StartSession])
               (StartTransaction (session_from h0)) ≠ Throws e)).
Proof.
  destruct (b h0 Connect) as [|e|e] eqn:Hc.
  - destruct (b (issue b h0 [Connect]) StartSession) as [|e|e] eqn:Hs.
    + destruct (b (issue b h0 [Connect; StartSession])
                  (StartTransaction (session_from h0))) as [|e|e] eqn:Ht.
      * right. repeat split; try done; intros e; by rewrite ?Hs.
      * right. repeat split; try done; intros e'; by rewrite ?Hs.
      * left. exists e, [Connect; StartSession;
                         StartTransaction (session_from h0)].
        split; [|by right; right].
        apply createTransaction_startTransaction_threw; try done.
        intros e'. by rewrite Hs.
    + destruct (b (issue b h0 [Connect; StartSession])
                  (StartTransaction (session_from h0))) as [|e'|e'] eqn:Ht.
      * right. repeat split; try done; intros e'; by rewrite ?Hs.
      * right. repeat split; try done; intros e''; by rewrite ?Hs.
      * left. exists e', [Connect; StartSession;
                          StartTransaction (session_from h0)].
        split; [|by right; right].
        apply createTransaction_startTransaction_threw; try done.
        intros e''. by rewrite Hs.
    + left. exists e, [Connect; StartSession]. split; [|by right; left].
      by apply createTransaction_startSession_threw.
  - left. exists e, [Connect]. split; [|by left].
    apply createTransaction_connect_failed. by left.
  - left. exists e, [Connect]. split; [|by left].
    apply createTransaction_connect_failed. by right.
Qed.

(** The exits of the [try] statement: the loop made write calls [ws] of
    the list, and then the commit resolved, or the commit failed and the
    abort followed, or the loop threw and the abort followed. *)
Lemma try_statement_exits b db (ops : list Operation) s h
    (r : Completion unit) h' :
  try_catch
    (bind (for_operations b db ops s)
          (λ _, await (invoke b (CommitTransaction s))))
    (λ err, bind (await (invoke b (AbortTransaction s)))
                 (λ _, throw err)) h
  = (r, h') →
  ∃ ws tail,
    h' = issue b h (ws ++ tail)
    ∧ ws `sublist_of` flat_map (writes_of db s) ops
    ∧ (r = Normal tt
       ∧ tail = [CommitTransaction s]
       ∧ b (issue b h ws) (CommitTransaction s) = Resolves
       ∨ (∃ e, r = Thrown e)
         ∧ (tail = [CommitTransaction s; AbortTransaction s]
            ∧ b (issue b h ws) (CommitTransaction s) ≠ Resolves
            ∨ tail = [AbortTransaction s])).
Proof.
  destruct (for_operations_made b db ops s h) as (ws & Hws & Hsub).
  intros Hrun. exists ws.
  unfold try_catch, bind at 1 in Hrun.
  destruct (for_operations b db ops s h) as [[[]|e] h4];
    simpl in Hws; subst h4.
  - unfold await, bind at 1, invoke at 1 in Hrun.
    destruct (b (issue b h ws) (CommitTransaction s)) as [|e|e] eqn:Hcommit.
    + exists [CommitTransaction s]. simpl in Hrun.
      injection Hrun as <- <-.
      split; [by rewrite issue_app|]. split; [done|]. by left.
    + exists [CommitTransaction s; AbortTransaction s]. simpl in Hrun.
      unfold bind, invoke in Hrun.
      split; [|split; [done|right; split; [|by left]]];
        destruct (b _ (AbortTransaction s)); injection Hrun as <- <-;
        by rewrite ?issue_app; eauto.
    + exists [CommitTransaction s; AbortTransaction s]. simpl in Hrun.
      unfold bind, invoke in Hrun.
      split; [|split; [done|right; split; [|by left]]];
        destruct (b _ (AbortTransaction s)); injection Hrun as <- <-;
        by rewrite ?issue_app; eauto.
  - exists [AbortTransaction s].
    unfold await, bind, invoke in Hrun.
    split; [|split; [done|right; split; [|by right]]];
      destruct (b _ (AbortTransaction s)); injection Hrun as <- <-;
      by rewrite ?issue_app; eauto.
Qed.

Lemma Forall_of_sublist {A} (P : A → Prop) (l k : list A) :
  l `sublist_of` k → Forall P k → Forall P l.
Proof.
  induction 1 as [|x l k _ IH|x l k _ IH]; intros Hk; [done|..].
  - apply Forall_cons in Hk as [Hx Hk]. constructor; auto.
  - apply Forall_cons in Hk as [_ Hk]. auto.
Qed.

Lemma writes_of_confined db s op :
  Forall (λ w : @Call value,
            is_write w = true ∧ database_of w = Some db
            ∧ session_of w = Some s)
         (writes_of db s op).
Proof.
  unfold writes_of. destruct (OperationType.of_string _) as [ty|];
    [|constructor].
  apply Forall_forall. intros w Hw. apply list_elem_of_In in Hw.
  apply in_map_iff in Hw as (c & <- & _). by destruct ty.
Qed.

Lemma flat_map_writes_of_confined db s (ops : list Operation) :
  Forall (λ w : @Call value,
            is_write w = true ∧ database_of w = Some db
            ∧ session_of w = Some s)
         (flat_map (writes_of db s) ops).
Proof.
  induction ops as [|op ops IH]; simpl; [constructor|].
  apply Forall_app. split; [apply writes_of_confined | done].
Qed.

(** Every run has one of four shapes: a failure before the [try]
    statement, or the calls that start the transaction, write calls of
    the list in order, and then the commit, the failed commit and the
    abort, or the abort alone. *)
Lemma createTransaction_exits b db (ops : list Operation) h0
    (r : Completion unit) h :
  createTransaction b db ops h0 = (r, h) →
  ∃ start ws tail,
    h = issue b h0 (start ++ ws ++ tail)
    ∧ ws `sublist_of` flat_map (writes_of db (session_from h0)) ops
    ∧ ((∃ e, r = Thrown e) ∧ ws = [] ∧ tail = []
       ∧ (start = [Connect] ∨ start = [Connect; StartSession]
          ∨ (start = [Connect; StartSession;
                      StartTransaction (session_from h0)]
             ∧ ∃ e, b (issue b h0 [Connect; StartSession])
                      (StartTransaction (session_from h0)) = Throws e))
       ∨ start = [Connect; StartSession; StartTransaction (session_from h0)]
         ∧ (∀ e, b (issue b h0 [Connect; StartSession])
                   (StartTransaction (session_from h0)) ≠ Throws e)
         ∧ (r = Normal tt
            ∧ tail = [CommitTransaction (session_from h0)]
            ∧ b (issue b h0 (start ++ ws))
                (CommitTransaction (session_from h0)) = Resolves
            ∨ (∃ e, r = Thrown e)
              ∧ (tail = [CommitTransaction (session_from h0);
                         AbortTransaction (session_from h0)]
                 ∧ b (issue b h0 (start ++ ws))
                     (CommitTransaction (session_from h0)) ≠ Resolves
                 ∨ tail = [AbortTransaction (session_from h0)]))).
Proof.
  intros Hrun.
  destruct (createTransaction_startup b db ops h0)
    as [(e & ks & Hfail & Hks)|(Hc & Hs & Ht)].
  - rewrite Hfail in Hrun. injection Hrun as <- <-.
    exists ks, [], []. rewrite !app_nil_r.
    split; [done|]. split; [apply sublist_nil_l|]. left.
    split; [by eexists|]. do 2 (split; [done|]).
    destruct Hks as [->|[->|[-> Hthrow]]]; eauto.
  - rewrite createTransaction_started in Hrun by done.
    apply try_statement_exits in Hrun as (ws & tail & -> & Hsub & Hexit).
    exists [Connect; StartSession; StartTransaction (session_from h0)],
           ws, tail.
    split; [by rewrite <- !issue_app|]. split; [done|]. right.
    split; [done|]. split; [done|]. by rewrite issue_app.
Qed.

Lemma made_issue b h0 (ks : list Call) : made h0 (issue b h0 ks) = ks.
Proof. apply made_app. by rewrite calls_issue. Qed.

(** X1: when the connection cannot be made, the run rejects with the
    error of [connect] and makes no other call: no session, no
    transaction, no abort. *)
Theorem connect_failure_stops_run b db (ops : list Operation) h0
    (e : error) :
  b h0 Connect = Rejects e ∨ b h0 Connect = Throws e →
  (createTransaction b db ops h0).1 = Thrown e
  ∧ made h0 (createTransaction b db ops h0).2 = [Connect].
Proof.
  intros Hc. rewrite (createTransaction_connect_failed b db ops h0 e Hc).
  split; [done|]. apply (made_issue b h0 [Connect]).
Qed.

(** X2: when [startTransaction] throws, the run rejects with that error
    after the three calls made so far; the [try] statement is not
    entered, so neither a write call nor [abortTransaction] follows. *)
Theorem startTransaction_failure_not_aborted b db (ops : list Operation) h0
    (e : error) :
  b h0 Connect = Resolves →
  (∀ e', b (issue b h0 [Connect]) StartSession ≠ Throws e') →
  b (issue b h0 [Connect; StartSession]) (StartTransaction (session_from h0))
  = Throws e →
  (createTransaction b db ops h0).1 = Thrown e
  ∧ made h0 (createTransaction b db ops h0).2
    = [Connect; StartSession; StartTransaction (session_from h0)].
Proof.
  intros Hc Hs Ht.
  rewrite (createTransaction_startTransaction_threw b db ops h0 e Hc Hs Ht).
  split; [done|]. apply (made_issue b h0 [Connect; StartSession; _]).
Qed.

(** X3: a run that resolves has started the transaction, made write
    calls only, and ended with a [commitTransaction] that resolved;
    [abortTransaction] was not called. *)
Theorem resolved_run_committed b db (ops : list Operation) h0 h :
  createTransaction b db ops h0 = (Normal tt, h) →
  (∃ ws,
     made h0 h
     = [Connect; StartSession; StartTransaction (session_from h0)]
       ++ ws ++ [CommitTransaction (session_from h0)]
     ∧ Forall (λ w, is_write w = true) ws)
  ∧ last h = Some {| call := CommitTransaction (session_from h0);
                     outcome := Resolves |}
  ∧ ∀ s, AbortTransaction s ∉ made h0 h.
Proof.
  intros Hrun.
  apply createTransaction_exits in Hrun
    as (start & ws & tail & -> & Hsub & Hexit).
  destruct Hexit as [([e He] & _)|(-> & _ & Hexit)]; [done|].
  destruct Hexit as [(_ & -> & Hcommit)|([e He] & _)]; [|done].
  assert (Forall (λ w : @Call value, is_write w = true) ws) as Hws.
  { eapply Forall_of_sublist; [done|].
    apply flat_map_writes_of_are_writes. }
  assert (made h0 (issue b h0
            ([Connect; StartSession; StartTransaction (session_from h0)]
             ++ ws ++ [CommitTransaction (session_from h0)]))
          = [Connect; StartSession; StartTransaction (session_from h0)]
            ++ ws ++ [CommitTransaction (session_from h0)]) as Hmade.
  { apply made_issue. }
  split; [by exists ws|]. split.
  - rewrite !app_assoc, issue_app.
    change (issue b ?x [?k]) with (record b x k). unfold record.
    rewrite last_snoc. by rewrite Hcommit.
  - intros s Hin. rewrite Hmade in Hin.
    rewrite Forall_forall in Hws.
    repeat (apply elem_of_app in Hin as [Hin|Hin]
            || apply elem_of_cons in Hin as [Hin|Hin]);
      try discriminate Hin; try (by apply elem_of_nil in Hin).
    by apply Hws in Hin.
Qed.

(** X4: once the transaction is started, every exit of the run ends it:
    the last call is [commitTransaction] when the run resolves, and
    [abortTransaction] when it rejects; between [startTransaction] and
    these there are write calls only. *)
Theorem started_transaction_is_ended b db (ops : list Operation) h0 :
  b h0 Connect = Resolves →
  (∀ e, b (issue b h0 [Connect]) StartSession ≠ Throws e) →
  (∀ e, b (issue b h0 [Connect; StartSession])
          (StartTransaction (session_from h0)) ≠ Throws e) →
  ∃ ws tail,
    made h0 (createTransaction b db ops h0).2
    = [Connect; StartSession; StartTransaction (session_from h0)]
      ++ ws ++ tail
    ∧ Forall (λ w, is_write w = true) ws
    ∧ ((createTransaction b db ops h0).1 = Normal tt
       ∧ tail = [CommitTransaction (session_from h0)]
       ∨ (∃ e, (createTransaction b db ops h0).1 = Thrown e)
         ∧ (tail = [CommitTransaction (session_from h0);
                    AbortTransaction (session_from h0)]
            ∨ tail = [AbortTransaction (session_from h0)])).
Proof.
  intros Hc Hs Ht.
  rewrite createTransaction_started by done.
  destruct (try_catch _ _ _) as [r h] eqn:Hrun.
  apply try_statement_exits in Hrun as (ws & tail & -> & Hsub & Hexit).
  exists ws, tail. split.
  { cbn [snd]. rewrite <- issue_app. apply made_issue. }
  split.
  { eapply Forall_of_sublist; [done|].
    apply flat_map_writes_of_are_writes. }
  simpl. destruct Hexit as [(-> & -> & _)|(He & [[-> _]| ->])]; eauto.
Qed.

Lemma no_sync_throw_started b db (ops : list Operation) h0 :
  no_sync_throw b → b h0 Connect = Resolves →
  createTransaction b db ops h0
  = try_catch
      (bind (for_operations b db ops (session_from h0))
            (λ _, await (invoke b (CommitTransaction (session_from h0)))))
      (λ err, bind (await (invoke b (AbortTransaction (session_from h0))))
                   (λ _, throw err))
      (issue b h0 [Connect; StartSession;
                   StartTransaction (session_from h0)]).
Proof.
  intros Hb Hc. apply createTransaction_started; [done|..]; intros e; apply Hb.
Qed.

(** X5: when every write call returns and the commit fails, the run
    calls [abortTransaction] next and, the abort resolving, rejects with
    the error of the commit. *)
Theorem commit_failure_aborts_and_rethrows b db (ops : list Operation) h0
    (e : error) :
  no_sync_throw b →
  b h0 Connect = Resolves →
  b (issue b h0 ([Connect; StartSession; StartTransaction (session_from h0)]
                 ++ flat_map (writes_of db (session_from h0)) ops))
    (CommitTransaction (session_from h0)) = Rejects e →
  b (issue b h0 ([Connect; StartSession; StartTransaction (session_from h0)]
                 ++ flat_map (writes_of db (session_from h0)) ops
                 ++ [CommitTransaction (session_from h0)]))
    (AbortTransaction (session_from h0)) = Resolves →
  createTransaction b db ops h0
  = (Thrown e,
     issue b h0 ([Connect; StartSession; StartTransaction (session_from h0)]
                 ++ flat_map (writes_of db (session_from h0)) ops
                 ++ [CommitTransaction (session_from h0);
                     AbortTransaction (session_from h0)])).
Proof.
  intros Hb Hc Hcommit Habort.
  rewrite no_sync_throw_started by done.
  rewrite !app_assoc, !issue_app in Habort. rewrite issue_app in Hcommit.
  change (issue b ?x [?k]) with (record b x k) in Habort.
  rewrite !app_assoc, !issue_app.
  unfold try_catch, bind at 1. rewrite for_operations_run by done.
  unfold await, bind, invoke, throw, ret. rewrite Hcommit. cbn iota beta.
  by rewrite Habort.
Qed.

(** X6: when the commit fails and the abort after it fails too, the run
    rejects with the error of the abort; the error of the commit is
    lost. *)
Theorem abort_failure_replaces_error b db (ops : list Operation) h0
    (e e' : error) :
  no_sync_throw b →
  b h0 Connect = Resolves →
  b (issue b h0 ([Connect; StartSession; StartTransaction (session_from h0)]
                 ++ flat_map (writes_of db (session_from h0)) ops))
    (CommitTransaction (session_from h0)) = Rejects e →
  b (issue b h0 ([Connect; StartSession; StartTransaction (session_from h0)]
                 ++ flat_map (writes_of db (session_from h0)) ops
                 ++ [CommitTransaction (session_from h0)]))
    (AbortTransaction (session_from h0)) = Rejects e' →
  createTransaction b db ops h0
  = (Thrown e',
     issue b h0 ([Connect; StartSession; StartTransaction (session_from h0)]
                 ++ flat_map (writes_of db (session_from h0)) ops
                 ++ [CommitTransaction (session_from h0);
                     AbortTransaction (session_from h0)])).
Proof.
  intros Hb Hc Hcommit Habort.
  rewrite no_sync_throw_started by done.
  rewrite !app_assoc, !issue_app in Habort. rewrite issue_app in Hcommit.
  change (issue b ?x [?k]) with (record b x k) in Habort.
  rewrite !app_assoc, !issue_app.
  unfold try_catch, bind at 1. rewrite for_operations_run by done.
  unfold await, bind, invoke, throw, ret. rewrite Hcommit. cbn iota beta.
  by rewrite Habort.
Qed.

Lemma for_operations_app b db (ops1 ops2 : list Operation) s h :
  for_operations b db (ops1 ++ ops2) s h
  = bind (for_operations b db ops1 s) (λ _, for_operations b db ops2 s) h.
Proof.
  revert h. induction ops1 as [|op ops1 IH]; intros h; simpl.
  - done.
  - unfold bind in *.
    destruct (dispatch b db op s h) as [[[]|e] h1]; [apply IH|done].
Qed.

Lemma session_calls_started b db (ops : list Operation) h0 :
  session_calls_resolve b →
  createTransaction b db ops h0
  = try_catch
      (bind (for_operations b db ops (session_from h0))
            (λ _, await (invoke b (CommitTransaction (session_from h0)))))
      (λ err, bind (await (invoke b (AbortTransaction (session_from h0))))
                   (λ _, throw err))
      (issue b h0 [Connect; StartSession;
                   StartTransaction (session_from h0)]).
Proof.
  intros Hs. apply createTransaction_started; [by apply Hs|..];
    intros e; by rewrite Hs.
Qed.

(** X7: a write call of an update or delete operation that throws ends
    the loop: no later collector and no later operation is dispatched,
    [commitTransaction] is not called, [abortTransaction] is, and the run
    rejects with the error thrown. *)
Theorem update_delete_throw_aborts b db (ops1 ops2 : list Operation) op
    (ty : OperationType.t) (cs1 cs2 : list Collector) c h0 (e : error) :
  session_calls_resolve b →
  OperationType.of_string (operationType op) = Some ty →
  ty ≠ OperationType.Create →
  collectors op = cs1 ++ c :: cs2 →
  Forall (never_throws b)
         (flat_map (writes_of db (session_from h0)) ops1
          ++ map (write_call ty db (session_from h0)) cs1) →
  b (issue b h0 ([Connect; StartSession; StartTransaction (session_from h0)]
                 ++ flat_map (writes_of db (session_from h0)) ops1
                 ++ map (write_call ty db (session_from h0)) cs1))
    (write_call ty db (session_from h0) c) = Throws e →
  createTransaction b db (ops1 ++ op :: ops2) h0
  = (Thrown e,
     issue b h0 ([Connect; StartSession; StartTransaction (session_from h0)]
                 ++ flat_map (writes_of db (session_from h0)) ops1
                 ++ map (write_call ty db (session_from h0)) cs1
                 ++ [write_call ty db (session_from h0) c;
                     AbortTransaction (session_from h0)])).
Proof.
  intros Hs Hty Hnc Hcs Hq Hthrow.
  rewrite session_calls_started by done.
  set (s := session_from h0) in *.
  apply Forall_app in Hq as [Hq1 Hq2].
  rewrite !app_assoc, !issue_app in Hthrow.
  unfold try_catch, bind at 1. rewrite for_operations_app.
  unfold bind at 1. rewrite for_operations_quiet by done.
  cbn iota beta. cbn [for_operations]. unfold bind at 1.
  assert (dispatch b db op s
            (issue b (issue b h0 [Connect; StartSession; StartTransaction s])
                     (flat_map (writes_of db s) ops1))
          = (Thrown e,
             issue b (issue b (issue b h0 [Connect; StartSession;
                                           StartTransaction s])
                              (flat_map (writes_of db s) ops1))
                     (map (write_call ty db s) cs1 ++ [write_call ty db s c])))
    as ->.
  { unfold dispatch. unfold OperationType.of_string in Hty.
    repeat case_decide; try done.
    - by injection Hty as <-.
    - injection Hty as <-. unfold update. rewrite Hcs.
      by apply (for_collectors_throw b (updateOne_call db s)).
    - injection Hty as <-. unfold delete. rewrite Hcs.
      by apply (for_collectors_throw b (deleteOne_call db s)). }
  unfold await, bind, invoke. rewrite Hs by done.
  rewrite !app_assoc, !issue_app. done.
Qed.

(** X8: a write call of a create operation that throws only ends the
    loop of that operation: its later collectors get no call, the later
    operations are dispatched as usual, and the run commits and
    resolves. *)
Theorem create_throw_skips_rest_of_operation b db
    (ops1 ops2 : list Operation) op (cs1 cs2 : list Collector) c h0
    (e : error) :
  session_calls_resolve b →
  operationType op = OperationType.to_string OperationType.Create →
  collectors op = cs1 ++ c :: cs2 →
  Forall (never_throws b)
         (flat_map (writes_of db (session_from h0)) ops1
          ++ map (insertOne_call db (session_from h0)) cs1
          ++ flat_map (writes_of db (session_from h0)) ops2) →
  b (issue b h0 ([Connect; StartSession; StartTransaction (session_from h0)]
                 ++ flat_map (writes_of db (session_from h0)) ops1
                 ++ map (insertOne_call db (session_from h0)) cs1))
    (insertOne_call db (session_from h0) c) = Throws e →
  createTransaction b db (ops1 ++ op :: ops2) h0
  = (Normal tt,
     issue b h0 ([Connect; StartSession; StartTransaction (session_from h0)]
                 ++ flat_map (writes_of db (session_from h0)) ops1
                 ++ map (insertOne_call db (session_from h0)) cs1
                 ++ [insertOne_call db (session_from h0) c]
                 ++ flat_map (writes_of db (session_from h0)) ops2
                 ++ [CommitTransaction (session_from h0)])).
Proof.
  intros Hs Hty Hcs Hq Hthrow.
  rewrite session_calls_started by done.
  set (s := session_from h0) in *.
  apply Forall_app in Hq as [Hq1 Hq2].
  apply Forall_app in Hq2 as [Hq2 Hq3].
  rewrite !app_assoc, !issue_app in Hthrow.
  unfold try_catch, bind at 1. rewrite for_operations_app.
  unfold bind at 1. rewrite for_operations_quiet by done.
  cbn iota beta. cbn [for_operations]. unfold bind at 1.
  assert (dispatch b db op s
            (issue b (issue b h0 [Connect; StartSession; StartTransaction s])
                     (flat_map (writes_of db s) ops1))
          = (Normal tt,
             issue b (issue b (issue b h0 [Connect; StartSession;
                                           StartTransaction s])
                              (flat_map (writes_of db s) ops1))
                     (map (insertOne_call db s) cs1 ++ [insertOne_call db s c])))
    as ->.
  { unfold dispatch. rewrite decide_True by done.
    unfold bind, create, async. rewrite Hcs.
    by rewrite (for_collectors_throw b (insertOne_call db s) cs1 cs2 c _ e). }
  rewrite for_operations_quiet by done.
  unfold await, bind, invoke. rewrite Hs by done.
  rewrite !app_assoc, !issue_app. done.
Qed.

Lemma for_operations_create_normal b db (ops : list Operation) s h :
  Forall (λ op, operationType op
                = OperationType.to_string OperationType.Create) ops →
  (for_operations b db ops s h).1 = Normal tt.
Proof.
  intros Hops. revert h.
  induction Hops as [|op ops Hop _ IH]; intros h; [done|].
  simpl. unfold bind.
  pose proof (dispatch_create_normal b db op s h Hop) as Hd.
  destruct (dispatch b db op s h) as [[[]|e] h1]; [apply IH|done].
Qed.

(** X9: a run whose operations are all create operations reaches the
    commit whatever the write calls do, throw included: when the session
    calls resolve it resolves, with [commitTransaction] as its last
    call. *)
Theorem create_only_run_commits b db (ops : list Operation) h0 :
  session_calls_resolve b →
  Forall (λ op, operationType op
                = OperationType.to_string OperationType.Create) ops →
  (createTransaction b db ops h0).1 = Normal tt
  ∧ last (calls (createTransaction b db ops h0).2)
    = Some (CommitTransaction (session_from h0)).
Proof.
  intros Hs Hops.
  assert (∃ h4, createTransaction b db ops h0
                = (Normal tt,
                   record b h4 (CommitTransaction (session_from h0))))
    as [h4 ->].
  { rewrite session_calls_started by done.
    unfold try_catch, bind at 1.
    pose proof (for_operations_create_normal b db ops (session_from h0)
                  (issue b h0 [Connect; StartSession;
                               StartTransaction (session_from h0)]) Hops)
      as Hn.
    destruct (for_operations b db ops _ _) as [[[]|e] h4]; [|done].
    exists h4. unfold await, bind, invoke. by rewrite Hs. }
  split; [done|]. cbn [snd]. rewrite calls_record. apply last_snoc.
Qed.

Lemma filter_all {A} (P : A → Prop) `{∀ x, Decision (P x)} (l : list A) :
  Forall P l → filter P l = l.
Proof.
  induction 1 as [|x l Hx _ IH]; [done|].
  rewrite filter_cons_True by done. by rewrite IH.
Qed.

(** X10: on every backend, the write calls a run makes are write calls of
    the operations, in the order of the list, each at most once: a
    sublist of the concatenation of the calls of the operations. *)
Theorem writes_made_in_list_order b db (ops : list Operation) h0 :
  filter (λ k, is_write k = true) (made h0 (createTransaction b db ops h0).2)
  `sublist_of` flat_map (writes_of db (session_from h0)) ops.
Proof.
  destruct (createTransaction b db ops h0) as [r h] eqn:Hrun.
  apply createTransaction_exits in Hrun
    as (start & ws & tail & -> & Hsub & Hexit).
  cbn [snd]. rewrite made_issue, !filter_app.
  assert (filter (λ k : @Call value, is_write k = true) ws = ws) as ->.
  { apply filter_all. eapply Forall_of_sublist; [done|].
    apply flat_map_writes_of_are_writes. }
  assert (filter (λ k : @Call value, is_write k = true) start = []) as ->.
  { destruct Hexit as [(_ & _ & _ & [->|[->|[-> _]]])|(-> & _)]; done. }
  assert (filter (λ k : @Call value, is_write k = true) tail = []) as ->.
  { destruct Hexit
      as [(_ & _ & -> & _)|(_ & _ & [(_ & -> & _)|(_ & [[-> _]| ->])])];
      done. }
  by rewrite app_nil_r.
Qed.

(** X11: on every backend, every write call of a run addresses the
    database given to [createTransaction], and every call that names a
    session names the one the run started. *)
Theorem calls_stay_in_database_and_session b db (ops : list Operation) h0 :
  Forall (λ k, (is_write k = true → database_of k = Some db)
               ∧ (∀ s, session_of k = Some s → s = session_from h0))
         (made h0 (createTransaction b db ops h0).2).
Proof.
  destruct (createTransaction b db ops h0) as [r h] eqn:Hrun.
  apply createTransaction_exits in Hrun
    as (start & ws & tail & -> & Hsub & Hexit).
  cbn [snd]. rewrite made_issue, !Forall_app. repeat split.
  - destruct Hexit as [(_ & _ & _ & [->|[->|[-> _]]])|(-> & _)];
      repeat constructor; simpl; try done; by intros s [= <-].
  - eapply Forall_impl.
    + eapply Forall_of_sublist; [done|].
      apply flat_map_writes_of_confined.
    + intros k (_ & Hdb & Hs). split; [done|].
      intros s Hk. rewrite Hs in Hk. by injection Hk as <-.
  - destruct Hexit
      as [(_ & _ & -> & _)|(_ & _ & [(_ & -> & _)|(_ & [[-> _]| ->])])];
      repeat constructor; simpl; try done; by intros s [= <-].
Qed.

(** ** Write promises are not looked at *)

Lemma same_length (h h' : @History value error) :
  calls h = calls h' → length h = length h'.
Proof.
  intros Hh. apply (f_equal length) in Hh. unfold calls in Hh.
  by rewrite !length_map in Hh.
Qed.

Lemma same_throws b b' h h' (k : Call) :
  same_control b b' → calls h = calls h' →
  ∀ e, b h k = Throws e ↔ b' h' k = Throws e.
Proof.
  intros Hbb Hh e. specialize (Hbb h h' k Hh).
  destruct (is_write k); [done | by rewrite Hbb].
Qed.

Lemma bind_same {A B} (m m' : Eff A) (f f' : A → Eff B) h h' :
  same_run (m h) (m' h') →
  (∀ a h1 h1', calls h1 = calls h1' → same_run (f a h1) (f' a h1')) →
  same_run (bind m f h) (bind m' f' h').
Proof.
  intros [Hr Hh] Hf. unfold bind.
  destruct (m h) as [[a|e] h1], (m' h') as [[a'|e'] h1']; simpl in *;
    try done.
  - injection Hr as <-. by apply Hf.
  - by injection Hr as <-.
Qed.

Lemma try_catch_same {A} (m m' : Eff A) (f f' : error → Eff A) h h' :
  same_run (m h) (m' h') →
  (∀ e h1 h1', calls h1 = calls h1' → same_run (f e h1) (f' e h1')) →
  same_run (try_catch m f h) (try_catch m' f' h').
Proof.
  intros [Hr Hh] Hf. unfold try_catch.
  destruct (m h) as [[a|e] h1], (m' h') as [[a'|e'] h1']; simpl in *;
    try done.
  injection Hr as <-. by apply Hf.
Qed.

(** A call whose promise is dropped. *)
Lemma invoke_then_same {A} b b' (k : Call) (m m' : Eff A) h h' :
  same_control b b' → calls h = calls h' →
  (∀ h1 h1', calls h1 = calls h1' → same_run (m h1) (m' h1')) →
  same_run (bind (invoke b k) (λ _, m) h) (bind (invoke b' k) (λ _, m') h').
Proof.
  intros Hbb Hh Hm. unfold bind, invoke.
  pose proof (same_throws b b' h h' k Hbb Hh) as Hthrows.
  assert (calls (record b h k) = calls (record b' h' k)) as Hrec
    by (by rewrite !calls_record, Hh).
  destruct (b h k) as [|e|e], (b' h' k) as [|e'|e'];
    try (by apply Hm).
  - destruct (Hthrows e') as [_ H]. by specialize (H eq_refl).
  - destruct (Hthrows e') as [_ H]. by specialize (H eq_refl).
  - destruct (Hthrows e) as [H _]. by specialize (H eq_refl).
  - destruct (Hthrows e) as [H _]. by specialize (H eq_refl).
  - destruct (Hthrows e) as [H _]. specialize (H eq_refl).
    injection H as ->. by split.
Qed.

(** A session call that is awaited. *)
Lemma await_invoke_same b b' (k : Call) h h' :
  same_control b b' → calls h = calls h' → is_write k = false →
  same_run (await (invoke b k) h) (await (invoke b' k) h').
Proof.
  intros Hbb Hh Hk. unfold await, bind, invoke.
  assert (calls (record b h k) = calls (record b' h' k)) as Hrec
    by (by rewrite !calls_record, Hh).
  specialize (Hbb h h' k Hh). rewrite Hk in Hbb. rewrite Hbb.
  by destruct (b' h' k).
Qed.

Lemma startSession_same b b' h h' :
  same_control b b' → calls h = calls h' →
  same_run (startSession b h) (startSession b' h').
Proof.
  intros Hbb Hh. unfold startSession.
  assert (calls (record b h StartSession) = calls (record b' h' StartSession))
    as Hrec by (by rewrite !calls_record, Hh).
  pose proof (Hbb h h' StartSession Hh) as Hs. simpl in Hs. rewrite Hs.
  rewrite (same_length h h' Hh).
  by destruct (b' h' StartSession).
Qed.

Lemma for_collectors_same b b' (f : Collector → Call)
    (cs : list Collector) h h' :
  same_control b b' → calls h = calls h' →
  same_run (for_collectors b f cs h) (for_collectors b' f cs h').
Proof.
  intros Hbb. revert h h'.
  induction cs as [|c cs IH]; intros h h' Hh; [done|].
  simpl. apply invoke_then_same; auto.
Qed.

Lemma dispatch_same b b' db op s h h' :
  same_control b b' → calls h = calls h' →
  same_run (dispatch b db op s h) (dispatch b' db op s h').
Proof.
  intros Hbb Hh. unfold dispatch. repeat case_decide.
  - apply bind_same; [|done].
    unfold create, async.
    destruct (for_collectors_same b b' (insertOne_call db s)
                (collectors op) h h' Hbb Hh) as [Hr Hc].
    destruct (for_collectors b _ _ h), (for_collectors b' _ _ h').
    simpl in *. by rewrite Hr.
  - by apply for_collectors_same.
  - by apply for_collectors_same.
  - done.
Qed.

Lemma for_operations_same b b' db (ops : list Operation) s h h' :
  same_control b b' → calls h = calls h' →
  same_run (for_operations b db ops s h) (for_operations b' db ops s h').
Proof.
  intros Hbb. revert h h'.
  induction ops as [|op ops IH]; intros h h' Hh; [done|].
  simpl. apply bind_same; [by apply dispatch_same|].
  intros _ h1 h1' Hh1. by apply IH.
Qed.

(** X12: whether the promise of a write call is fulfilled or rejected
    has no influence on a run: on two backends that answer the session
    calls alike and on which the same write calls throw, the run makes
    the same calls and completes the same way. *)
Theorem write_promises_not_observed b b' db (ops : list Operation) h0 h0' :
  same_control b b' →
  calls h0 = calls h0' →
  (createTransaction b db ops h0).1 = (createTransaction b' db ops h0').1
  ∧ calls (createTransaction b db ops h0).2
    = calls (createTransaction b' db ops h0').2.
Proof.
  intros Hbb Hh. change (same_run (createTransaction b db ops h0)
                                  (createTransaction b' db ops h0')).
  unfold createTransaction.
  apply bind_same; [by apply await_invoke_same|].
  intros _ h1 h1' Hh1.
  apply bind_same; [by apply startSession_same|].
  intros s h2 h2' Hh2.
  apply invoke_then_same; [done..|].
  intros h3 h3' Hh3.
  apply try_catch_same.
  - apply bind_same; [by apply for_operations_same|].
    intros _ h4 h4' Hh4. by apply await_invoke_same.
  - intros e h4 h4' Hh4.
    apply bind_same; [by apply await_invoke_same|].
    intros _ h5 h5' Hh5. by split.
Qed.

(** X13: the [index] of a collector of a create operation is not used:
    replacing the selectors of its collectors leaves the run
    unchanged, on every backend. *)
Theorem create_ignores_index b db (ops1 ops2 : list Operation)
    (cs : list Collector) (selector : Collector → option Doc) h0 :
  createTransaction b db
    (ops1 ++ {| operationType :=
                  OperationType.to_string OperationType.Create;
                collectors := map (λ c, with_index (selector c) c) cs |}
          :: ops2) h0
  = createTransaction b db
      (ops1 ++ {| operationType :=
                    OperationType.to_string OperationType.Create;
                  collectors := cs |} :: ops2) h0.
Proof.
  apply createTransaction_replace; [done|].
  intros s ty' Hty. simpl in *. injection Hty as <-.
  rewrite map_map. by apply map_ext.
Qed.

(** ** Runs on the reference server *)

Section ReferenceServerRuns.

Context `{EqDecision value}.

Implicit Types (sv : @Server value).

Lemma serve_writes sv s (evs : list (@Event value error))
    (ws0 : list Call) :
  Forall (λ ev, is_write (call ev) = true ∧ session_of (call ev) = Some s)
         evs →
  staged sv !! sid s = Some ws0 →
  foldl serve sv evs
  = {| committed := committed sv;
       staged := <[sid s := ws0 ++ fulfilled_writes evs]> (staged sv) |}.
Proof.
  intros Hevs. revert sv ws0.
  induction Hevs as [|[k o] evs [Hk Hs] _ IH]; intros sv ws0 Hsv; simpl.
  - rewrite app_nil_r, insert_id by done. by destruct sv.
  - simpl in Hk, Hs. rewrite Hk.
    destruct k; try discriminate Hk; injection Hs as ->;
      destruct o; simpl; unfold serve; simpl; rewrite ?Hsv;
      try (by apply IH);
      (erewrite IH by (simpl; apply lookup_insert_eq));
      simpl; by rewrite insert_insert_eq, <- app_assoc.
Qed.

Lemma issue_is_events b (ks : list Call) h :
  issue b h ks = h ++ events b h ks.
Proof.
  revert h. induction ks as [|k ks IH]; intros h; simpl.
  - by rewrite app_nil_r.
  - rewrite IH. unfold record. by rewrite <- app_assoc.
Qed.

Lemma events_app b (ks1 ks2 : list Call) h :
  events b h (ks1 ++ ks2) = events b h ks1 ++ events b (issue b h ks1) ks2.
Proof.
  revert h. induction ks1 as [|k ks1 IH]; intros h; simpl; [done|].
  by rewrite IH.
Qed.

Lemma calls_events b (ks : list Call) h : map call (events b h ks) = ks.
Proof.
  revert h. induction ks as [|k ks IH]; intros h; simpl; [done|].
  by rewrite IH.
Qed.

Lemma new_events_issue b (ks : list Call) h0 :
  new_events h0 (issue b h0 ks) = events b h0 ks.
Proof.
  unfold new_events. rewrite issue_is_events. apply drop_app_length.
Qed.

Lemma fulfilled_writes_app (evs1 evs2 : list (@Event value error)) :
  fulfilled_writes (evs1 ++ evs2)
  = fulfilled_writes evs1 ++ fulfilled_writes evs2.
Proof.
  induction evs1 as [|ev evs1 IH]; simpl; [done|].
  destruct (is_write (call ev) && is_resolved (outcome ev)); simpl;
    by rewrite IH.
Qed.

Lemma events_confined b db s (ops : list Operation)
    (ws : list (@Call value)) h :
  ws `sublist_of` flat_map (writes_of db s) ops →
  Forall (λ ev, is_write (call ev) = true ∧ session_of (call ev) = Some s)
         (events b h ws).
Proof.
  intros Hsub.
  apply (Forall_map call
           (λ w, is_write w = true ∧ session_of w = Some s)).
  rewrite calls_events. eapply Forall_impl.
  - eapply Forall_of_sublist; [done|]. apply flat_map_writes_of_confined.
  - by intros w (? & _ & ?).
Qed.

(** The calls that start the transaction leave the committed collections
    alone and give the session an empty list of staged writes. *)
Lemma serve_start sv b h0 :
  (∀ e, b (issue b h0 [Connect; StartSession])
          (StartTransaction (session_from h0)) ≠ Throws e) →
  foldl serve sv
        (events b h0 [Connect; StartSession;
                      StartTransaction (session_from h0)])
  = {| committed := committed sv;
       staged := <[sid (session_from h0) := []]> (staged sv) |}.
Proof.
  intros Hstart. simpl in *. unfold serve at 1. simpl.
  destruct (b _ (StartTransaction _)) as [| |e]; try done.
  by destruct (Hstart e).
Qed.

(** X14: on the reference server, a run that resolves makes visible the
    write calls whose promise was fulfilled, applied in the order of the
    calls, and nothing else; a write whose promise was rejected is left
    out of the committed transaction. *)
Theorem resolved_run_applies_fulfilled_writes b db (ops : list Operation)
    h0 h (st : gmap (string * string) (list (gmap string value))) :
  createTransaction b db ops h0 = (Normal tt, h) →
  visible st h
  = foldl apply_write (visible st h0) (fulfilled_writes (new_events h0 h)).
Proof.
  intros Hrun.
  apply createTransaction_exits in Hrun
    as (start & ws & tail & -> & Hsub & Hexit).
  destruct Hexit as [([e He] & _)|(-> & Hstart & Hexit)]; [done|].
  destruct Hexit as [(_ & -> & Hcommit)|([e He] & _)]; [|done].
  set (s := session_from h0) in *.
  rewrite new_events_issue. unfold visible.
  rewrite issue_is_events, foldl_app.
  set (sv0 := foldl serve {| committed := st; staged := ∅ |} h0).
  rewrite !events_app, !foldl_app, !fulfilled_writes_app.
  rewrite serve_start by done.
  rewrite (serve_writes _ s (events b _ ws) []);
    [|by apply (events_confined b db s ops)|apply lookup_insert_eq].
  rewrite issue_app in Hcommit. cbn [events]. rewrite Hcommit.
  subst s. simpl. unfold serve. simpl. rewrite lookup_insert_eq.
  simpl. by rewrite app_nil_r.
Qed.

(** X15: on the reference server, a run that rejects leaves the visible
    collections as they were: whatever its write calls staged is
    discarded. *)
Theorem rejected_run_changes_nothing b db (ops : list Operation) h0 h
    (e : error) (st : gmap (string * string) (list (gmap string value))) :
  createTransaction b db ops h0 = (Thrown e, h) →
  visible st h = visible st h0.
Proof.
  intros Hrun.
  apply createTransaction_exits in Hrun
    as (start & ws & tail & -> & Hsub & Hexit).
  unfold visible. rewrite issue_is_events, foldl_app.
  set (sv0 := foldl serve {| committed := st; staged := ∅ |} h0).
  destruct Hexit as [(_ & -> & -> & Hstart)|(-> & Hstart & Hexit)].
  - rewrite !app_nil_r.
    destruct Hstart as [->|[->|[-> [e' Hthrow]]]]; simpl; try done.
    simpl in Hthrow. unfold serve. simpl. by rewrite Hthrow.
  - destruct Hexit as [(Hr & _)|(_ & Htail)]; [done|].
    set (s := session_from h0) in *.
    rewrite !events_app, !foldl_app.
    rewrite serve_start by done.
    rewrite (serve_writes _ s (events b _ ws) []);
      [|by apply (events_confined b db s ops)|apply lookup_insert_eq].
    destruct Htail as [[-> Hcommit]| ->].
    + rewrite issue_app in Hcommit. cbn [events].
      destruct (b _ (CommitTransaction s)) as [|e1|e1] eqn:Hc; [done|..];
        subst s; simpl; unfold serve; simpl; done.
    + subst s. simpl. unfold serve. simpl. done.
Qed.

Lemma fulfilled_writes_all b (ws : list (@Call value)) h :
  (∀ h' k, b h' k = Resolves) →
  Forall (λ w, is_write w = true) ws →
  fulfilled_writes (events b h ws) = ws.
Proof.
  intros Hall Hws. revert h.
  induction Hws as [|w ws Hw _ IH]; intros h; simpl; [done|].
  by rewrite Hw, Hall, IH.
Qed.

(** X16: on the reference server, when every call resolves, what a run
    makes visible is the effect of the write calls of its operations,
    applied one after the other in the order of the list. *)
Theorem resolved_writes_applied_in_order b db (ops : list Operation) h0
    (st : gmap (string * string) (list (gmap string value))) :
  (∀ h k, b h k = Resolves) →
  visible st (createTransaction b db ops h0).2
  = foldl apply_write (visible st h0)
          (flat_map (writes_of db (session_from h0)) ops).
Proof.
  intros Hall.
  rewrite createTransaction_run;
    [|by intros h k e; rewrite Hall|by intros h k _].
  cbn [snd]. unfold visible. rewrite issue_is_events, foldl_app.
  set (sv0 := foldl serve {| committed := st; staged := ∅ |} h0).
  set (s := session_from h0).
  rewrite !events_app, !foldl_app.
  rewrite serve_start by (intros e; by rewrite Hall).
  rewrite (serve_writes _ s (events b _ (flat_map (writes_of db s) ops)) []);
    [|by apply (events_confined b db s ops)|apply lookup_insert_eq].
  cbn [events]. rewrite Hall.
  rewrite fulfilled_writes_all
    by (done || apply flat_map_writes_of_are_writes).
  subst s. simpl. unfold serve. simpl. by rewrite lookup_insert_eq.
Qed.

Lemma matches_empty (d : gmap string value) : matches ∅ d = true.
Proof.
  unfold matches. apply bool_decide_eq_true. unfold Doc.
  apply (map_Forall_empty (M:=gmap string)).
Qed.

(** X17: a collector of a delete operation that has no [index] (the type
    [CollectionData] admits it when [insert] is present) gets
    [deleteOne] with the empty filter, which on the reference server
    matches every document: the first document of the collection is
    removed. *)
Theorem delete_without_index_removes_first_document b db
    (ops1 ops2 : list Operation) (cs1 cs2 : list Collector) c h0
    (st : gmap (string * string) (list (gmap string value))) :
  no_sync_throw b → session_calls_resolve b →
  index (data c) = None →
  ∃ h,
    createTransaction b db
      (ops1 ++ {| operationType :=
                    OperationType.to_string OperationType.Delete;
                  collectors := cs1 ++ c :: cs2 |} :: ops2) h0
    = (Normal tt, h)
    ∧ in_transaction h0 h (session_from h0)
        (DeleteOne db (collectionName c) ∅ (session_from h0))
    ∧ documents
        (apply_write st (DeleteOne db (collectionName c) ∅ (session_from h0)))
        db (collectionName c)
      = drop 1 (documents st db (collectionName c)).
Proof.
  intros Hb Hs Hc.
  destruct (item_in_transaction b db ops1 ops2
              {| operationType := OperationType.to_string OperationType.Delete;
                 collectors := cs1 ++ c :: cs2 |}
              OperationType.Delete cs1 cs2 c h0) as (h & Hrun & Hin);
    try done.
  exists h. split; [done|]. split.
  - simpl in Hin. unfold deleteOne_call in Hin. by rewrite Hc in Hin.
  - simpl. rewrite documents_insert. case_decide; [|done].
    destruct (documents st db (collectionName c)) as [|d docs]; [done|].
    simpl. by rewrite matches_empty.
Qed.

(** X18: a collector of an update operation that has no [index] gets
    [updateOne] with the empty filter: on the reference server the first
    document of the collection, whatever it is, gets the payload. *)
Theorem update_without_index_changes_first_document b db
    (ops1 ops2 : list Operation) (cs1 cs2 : list Collector) c h0
    (st : gmap (string * string) (list (gmap string value))) :
  no_sync_throw b → session_calls_resolve b →
  index (data c) = None →
  ∃ h,
    createTransaction b db
      (ops1 ++ {| operationType :=
                    OperationType.to_string OperationType.Update;
                  collectors := cs1 ++ c :: cs2 |} :: ops2) h0
    = (Normal tt, h)
    ∧ in_transaction h0 h (session_from h0)
        (UpdateOne db (collectionName c) ∅
                   (DollarSet (spread (insert (data c)))) (session_from h0))
    ∧ documents
        (apply_write st
           (UpdateOne db (collectionName c) ∅
                      (DollarSet (spread (insert (data c))))
                      (session_from h0)))
        db (collectionName c)
      = match documents st db (collectionName c) with
        | [] => []
        | d :: rest =>
            ((spread (insert (data c)) : gmap string value) ∪ d) :: rest
        end.
Proof.
  intros Hb Hs Hc.
  destruct (item_in_transaction b db ops1 ops2
              {| operationType := OperationType.to_string OperationType.Update;
                 collectors := cs1 ++ c :: cs2 |}
              OperationType.Update cs1 cs2 c h0) as (h & Hrun & Hin);
    try done.
  exists h. split; [done|]. split.
  - simpl in Hin. unfold updateOne_call in Hin. by rewrite Hc in Hin.
  - simpl. rewrite documents_insert. case_decide; [|done].
    destruct (documents st db (collectionName c)) as [|d docs]; [done|].
    simpl. by rewrite matches_empty.
Qed.

End ReferenceServerRuns.

End Properties.

(** ** The singleton *)

Section SingletonProperties.

Context {error : Type}.

Variable rejects : string → option error.

Lemma getInstance_set (u : string) (st : Statics) (t : Transaction) :
  instance st = Some t → getInstance rejects u st = (Normal t, st).
Proof. intros Hst. unfold getInstance. by rewrite Hst. Qed.

Lemma getInstances_set (us : list string) (st : Statics) (t : Transaction) :
  instance st = Some t →
  getInstances rejects us st = (replicate (length us) (Normal t), st).
Proof.
  intros Hst. induction us as [|u us IH]; [done|].
  simpl. by rewrite (getInstance_set u st t), IH.
Qed.

(** A call with a connection string that the client refuses throws, runs
    the constructor and leaves the instance unset. *)
Lemma getInstance_rejected (u : string) (st : Statics) (e : error) :
  instance st = None → rejects u = Some e →
  getInstance rejects u st
  = (Thrown e, {| instance := None; constructed := S (constructed st) |}).
Proof.
  intros Hst Hu. unfold getInstance, new_Transaction, new_MongoClient.
  by rewrite Hst, Hu.
Qed.

Lemma getInstances_rejected (us : list string) (st : Statics) :
  instance st = None →
  Forall (λ u, is_Some (rejects u)) us →
  Forall (λ r, ∃ e, r = Thrown e) (getInstances rejects us st).1
  ∧ (getInstances rejects us st).2
    = {| instance := None; constructed := constructed st + length us |}.
Proof.
  intros Hst Hus. revert st Hst.
  induction Hus as [|u us [e Hu] _ IH]; intros st Hst; simpl.
  - split; [constructor|]. destruct st; simpl in *. subst.
    by rewrite Nat.add_0_r.
  - rewrite (getInstance_rejected u st e) by done.
    destruct (IH {| instance := None; constructed := S (constructed st) |}
                 eq_refl) as [Hrs Hst'].
    destruct (getInstances rejects us _) as [rs st'']. simpl in *.
    split; [constructor; eauto|]. rewrite Hst'. f_equal. lia.
Qed.

(** C8, as amended: after a first [getInstance(u1)] that returned, every
    later call, whatever its argument, returns the object the first call
    built, configured with [u1] as its URI and as the URI of its client,
    and leaves the static state as it is. *)
Theorem getInstance_keeps_first (u1 : string) (us : list string)
    (st st1 : Statics) (t1 : Transaction) :
  instance st = None →
  getInstance rejects u1 st = (Normal t1, st1) →
  mongodbUri t1 = u1
  ∧ client t1 = {| uri := u1 |}
  ∧ instance st1 = Some t1
  ∧ getInstances rejects us st1 = (replicate (length us) (Normal t1), st1).
Proof.
  intros Hst Hget.
  unfold getInstance, new_Transaction, new_MongoClient in Hget.
  rewrite Hst in Hget.
  destruct (rejects u1) as [e|]; [done|].
  injection Hget as <- <-.
  repeat split. by apply getInstances_set.
Qed.

(** X19: the constructor is run by every call until one returns, and by
    no call after that: calls with refused connection strings throw and
    leave the instance unset, the first call with an accepted one builds
    the instance, and every later call returns that object without
    constructing, whatever its argument. *)
Theorem constructor_runs_until_accepted (bad : list string) (u : string)
    (rest : list string) (st : Statics) :
  instance st = None →
  Forall (λ v, is_Some (rejects v)) bad →
  rejects u = None →
  (getInstances rejects bad st).2
  = {| instance := None; constructed := constructed st + length bad |}
  ∧ Forall (λ r, ∃ e, r = Thrown e)
           (take (length bad) (getInstances rejects (bad ++ u :: rest) st).1)
  ∧ drop (length bad) (getInstances rejects (bad ++ u :: rest) st).1
    = replicate (S (length rest))
        (Normal {| oid := constructed st + length bad;
                   mongodbUri := u;
                   client := {| uri := u |} |})
  ∧ (getInstances rejects (bad ++ u :: rest) st).2
    = {| instance := Some {| oid := constructed st + length bad;
                             mongodbUri := u;
                             client := {| uri := u |} |};
         constructed := S (constructed st + length bad) |}.
Proof.
  intros Hst Hbad Hu.
  destruct (getInstances_rejected bad st Hst Hbad) as [Hrs Hst'].
  split; [done|].
  assert (∀ us2 st0,
            getInstances rejects (bad ++ us2) st0
            = ((getInstances rejects bad st0).1
               ++ (getInstances rejects us2
                     (getInstances rejects bad st0).2).1,
               (getInstances rejects us2
                  (getInstances rejects bad st0).2).2)) as Happ.
  { clear. induction bad as [|v bad IH]; intros us2 st0; simpl.
    - by destruct (getInstances rejects us2 st0).
    - destruct (getInstance rejects v st0) as [r st1].
      rewrite IH.
      by destruct (getInstances rejects bad st1) as [rs st2]. }
  assert (length (getInstances rejects bad st).1 = length bad) as Hlen.
  { clear. revert st. induction bad as [|v bad IH]; intros st; simpl; [done|].
    destruct (getInstance rejects v st) as [r st1]. specialize (IH st1).
    destruct (getInstances rejects bad st1) as [rs st2]. simpl in *.
    by rewrite IH. }
  rewrite Happ, Hst'. cbn [fst snd].
  rewrite take_app_length', drop_app_length' by done.
  split; [done|].
  cbn [getInstances].
  assert (getInstance rejects u
            {| instance := None; constructed := constructed st + length bad |}
          = (Normal {| oid := constructed st + length bad; mongodbUri := u;
                       client := {| uri := u |} |},
             {| instance :=
                  Some {| oid := constructed st + length bad;
                          mongodbUri := u; client := {| uri := u |} |};
                constructed := S (constructed st + length bad) |})) as ->.
  { unfold getInstance, new_Transaction, new_MongoClient. simpl.
    by rewrite Hu. }
  by rewrite (getInstances_set rest _
                {| oid := constructed st + length bad; mongodbUri := u;
                   client := {| uri := u |} |}).
Qed.

End SingletonProperties.

(** ** Runs on concrete backends *)

Import Scenario.

(** The insert item without payload is a value of [CollectionData]. *)
Example no_payload_typed : CollectionData_typed (data no_payload).
Proof. left. by eexists. Qed.

(** What the [catch] block does when the [try] block throws: a
    synchronous throw of [updateOne] reaches it, the transaction is
    aborted and the same error is rethrown. *)
Example update_throw_aborts :
  createTransaction updateOne_throws "shop" update_scenario []
  = (Thrown "write failed",
     [ resolved Connect; resolved StartSession;
       resolved (StartTransaction session1);
       {| call := UpdateOne "shop" "User" status_pending
                            (DollarSet status_done) session1;
          outcome := Throws "write failed" |};
       resolved (AbortTransaction session1) ]).
Proof. vm_compute. reflexivity. Qed.

(** The same throw inside the [async] method [create] only rejects the
    promise that [createTransaction] drops. *)
Example create_throw_is_dropped :
  createTransaction insertOne_throws "shop" create_scenario []
  = (Normal tt,
     [ resolved Connect; resolved StartSession;
       resolved (StartTransaction session1);
       {| call := InsertOne "shop" "User" ann session1;
          outcome := Throws "write failed" |};
       resolved (CommitTransaction session1) ]).
Proof. vm_compute. reflexivity. Qed.

(** A commit that fails is caught as well. *)
Example commit_rejection_aborts :
  createTransaction commit_rejects "shop" create_scenario []
  = (Thrown "commit failed",
     [ resolved Connect; resolved StartSession;
       resolved (StartTransaction session1);
       resolved (InsertOne "shop" "User" ann session1);
       {| call := CommitTransaction session1;
          outcome := Rejects "commit failed" |};
       resolved (AbortTransaction session1) ]).
Proof. vm_compute. reflexivity. Qed.

(** When the abort fails in its turn, its error is the one the caller
    gets. *)
Example abort_rejection_replaces_error :
  (createTransaction commit_and_abort_reject "shop" create_scenario []).1
  = Thrown "abort failed".
Proof. vm_compute. reflexivity. Qed.

(** C1: in the abort scenario of the specification, with a [deleteOne]
    that fails, the run still commits and resolves, and the document of
    the first operation is visible afterwards although the write of the
    second failed. *)
Theorem failed_write_still_commits :
  createTransaction deleteOne_rejects "shop" abort_scenario []
  = (Normal tt,
     [ resolved Connect; resolved StartSession;
       resolved (StartTransaction session1);
       resolved (InsertOne "shop" "User" ann session1);
       {| call := DeleteOne "shop" "Orphan" orphan session1;
          outcome := Rejects "write failed" |};
       resolved (CommitTransaction session1) ])
  ∧ documents
      (visible ∅
         (createTransaction deleteOne_rejects "shop" abort_scenario []).2)
      "shop" "User"
    = [ann].
Proof. split; vm_compute; reflexivity. Qed.

(** C2: with an [updateOne] whose promise rejects, the failure never
    reaches the [catch] block: [abortTransaction] is not called, the
    transaction is committed and the run resolves. *)
Theorem rejected_write_not_propagated :
  createTransaction updateOne_rejects "shop" update_scenario []
  = (Normal tt,
     [ resolved Connect; resolved StartSession;
       resolved (StartTransaction session1);
       {| call := UpdateOne "shop" "User" status_pending
                            (DollarSet status_done) session1;
          outcome := Rejects "write failed" |};
       resolved (CommitTransaction session1) ]).
Proof. vm_compute. reflexivity. Qed.

(** C3, as stated, fails: an insert item without payload is not
    detected; the run of [create_without_payload] resolves. *)
Lemma no_validation_of_items :
  ¬ validates_items all_resolve "shop" create_without_payload [].
Proof.
  intros Hval.
  destruct (Hval {| operationType := "CREATE"; collectors := [no_payload] |}
              no_payload OperationType.Create)
    as (e & h & Hrun & _).
  - apply list_elem_of_here.
  - apply list_elem_of_here.
  - reflexivity.
  - reflexivity.
  - vm_compute in Hrun. discriminate Hrun.
Qed.

(** ** Instances of the theorems *)

Lemma malformed_item_dispatched_witness :
  createTransaction all_resolve "shop"
    (map fill_operation create_without_payload) []
  = createTransaction all_resolve "shop" create_without_payload []
  ∧ InsertOne "shop" "User" ∅ session1
    = write_call OperationType.Create "shop" session1
                 (fill_collector no_payload)
  ∧ ∃ h,
      createTransaction all_resolve "shop" create_without_payload []
      = (Normal tt, h)
      ∧ in_transaction [] h session1 (InsertOne "shop" "User" ∅ session1)
      ∧ ∀ s, AbortTransaction s ∉ made [] h.
Proof.
  apply (malformed_item_dispatched all_resolve "shop" [] []
           {| operationType := "CREATE"; collectors := [no_payload] |}
           OperationType.Create [] [] no_payload []).
  - intros h c e. discriminate.
  - intros h c _. reflexivity.
  - reflexivity.
  - reflexivity.
  - reflexivity.
Defined.

Lemma update_item_sets_first_match_witness :
  ∃ h,
    createTransaction all_resolve "shop" update_scenario [] = (Normal tt, h)
    ∧ in_transaction [] h session1
        (UpdateOne "shop" "User" status_pending (DollarSet status_done)
                   session1)
    ∧ first_match_merged status_pending status_done
        (documents ∅ "shop" "User")
        (documents
           (apply_write ∅
              (UpdateOne "shop" "User" status_pending
                         (DollarSet status_done) session1))
           "shop" "User")
    ∧ ∀ db' coll',
        (db', coll') ≠ ("shop", "User") →
        documents
          (apply_write ∅
             (UpdateOne "shop" "User" status_pending
                        (DollarSet status_done) session1))
          db' coll'
        = documents ∅ db' coll'.
Proof.
  apply (update_item_sets_first_match all_resolve "shop" [] [] [] []
           finish_pending [] ∅).
  - intros h c e. discriminate.
  - intros h c _. reflexivity.
Defined.

Lemma delete_item_removes_first_match_witness :
  ∃ h,
    createTransaction all_resolve "shop"
      [ {| operationType := "DELETE"; collectors := [delete_orphan] |} ] []
    = (Normal tt, h)
    ∧ in_transaction [] h session1
        (DeleteOne "shop" "Orphan" orphan session1)
    ∧ createTransaction all_resolve "shop"
        [ {| operationType := "DELETE";
             collectors := [with_insert (Some ann) delete_orphan] |} ] []
      = (Normal tt, h)
    ∧ first_match_removed orphan
        (documents ∅ "shop" "Orphan")
        (documents
           (apply_write ∅ (DeleteOne "shop" "Orphan" orphan session1))
           "shop" "Orphan")
    ∧ ∀ db' coll',
        (db', coll') ≠ ("shop", "Orphan") →
        documents
          (apply_write ∅ (DeleteOne "shop" "Orphan" orphan session1))
          db' coll'
        = documents ∅ db' coll'.
Proof.
  apply (delete_item_removes_first_match all_resolve "shop" [] [] [] []
           delete_orphan [] (Some ann) ∅).
  - intros h c e. discriminate.
  - intros h c _. reflexivity.
Defined.


Lemma empty_operations_commit_witness :
  createTransaction all_resolve "shop" [] []
  = (Normal tt,
     [ resolved Connect; resolved StartSession;
       resolved (StartTransaction session1);
       resolved (CommitTransaction session1) ]).
Proof.
  apply (empty_operations_commit all_resolve "shop" []).
  intros h c _. reflexivity.
Defined.

Lemma getInstance_keeps_first_witness :
  mongodbUri
    {| oid := 0; mongodbUri := "mongodb://a";
       client := {| uri := "mongodb://a" |} |} = "mongodb://a"
  ∧ client
      {| oid := 0; mongodbUri := "mongodb://a";
         client := {| uri := "mongodb://a" |} |}
    = {| uri := "mongodb://a" |}
  ∧ instance (getInstance scheme_check "mongodb://a" fresh).2
    = Some {| oid := 0; mongodbUri := "mongodb://a";
              client := {| uri := "mongodb://a" |} |}
  ∧ getInstances scheme_check ["mongodb://b"; "dbUri"]
                 (getInstance scheme_check "mongodb://a" fresh).2
    = (replicate 2
         (Normal {| oid := 0; mongodbUri := "mongodb://a";
                    client := {| uri := "mongodb://a" |} |}),
       (getInstance scheme_check "mongodb://a" fresh).2).
Proof.
  apply (getInstance_keeps_first scheme_check "mongodb://a"
           ["mongodb://b"; "dbUri"] fresh).
  - reflexivity.
  - reflexivity.
Defined.

(** C8, as stated, fails: the first call [getInstance("dbUri")] of the
    sample in the source throws, the instance stays unset, and the next
    call builds the instance from its own argument. *)
Lemma first_call_that_throws_is_forgotten :
  ¬ later_call_returns_first scheme_check "dbUri" "mongodb://b" fresh.
Proof.
  intros (t & Hget & Huri & _).
  vm_compute in Hget. injection Hget as <-.
  discriminate Huri.
Qed.

Lemma unknown_operation_skipped_witness :
  (∀ s h, dispatch all_resolve "shop" upsert s h = (Normal tt, h))
  ∧ createTransaction all_resolve "shop" (create_scenario ++ upsert :: []) []
    = createTransaction all_resolve "shop" (create_scenario ++ []) []
  ∧ (no_sync_throw all_resolve → session_calls_resolve all_resolve →
     ∃ h, createTransaction all_resolve "shop"
            (create_scenario ++ upsert :: []) [] = (Normal tt, h)
          ∧ last (calls h) = Some (CommitTransaction session1)).
Proof.
  apply (unknown_operation_skipped all_resolve "shop" create_scenario []
           upsert []).
  - discriminate.
  - discriminate.
  - discriminate.
Defined.

Lemma create_without_insert_witness :
  ∃ h,
    createTransaction all_resolve "shop" create_without_payload []
    = (Normal tt, h)
    ∧ in_transaction [] h session1
        (InsertOne "shop" "User" (∅ : @Doc string) session1)
    ∧ documents
        (apply_write ∅ (InsertOne "shop" "User" (∅ : @Doc string) session1))
        "shop" "User"
      = documents ∅ "shop" "User" ++ [∅].
Proof.
  apply (create_without_insert all_resolve "shop" [] [] [] [] no_payload
           [] ∅).
  - intros h c e. discriminate.
  - intros h c _. reflexivity.
  - reflexivity.
Defined.

(** ** Instances of the theorems on every backend *)

Lemma connect_failure_stops_run_witness :
  (createTransaction connect_rejects "shop" abort_scenario []).1
  = Thrown "no connection"
  ∧ made [] (createTransaction connect_rejects "shop" abort_scenario []).2
    = [Connect].
Proof.
  apply (connect_failure_stops_run connect_rejects "shop" abort_scenario []
           "no connection").
  left. reflexivity.
Defined.

Lemma startTransaction_failure_not_aborted_witness :
  (createTransaction startTransaction_throws "shop" abort_scenario []).1
  = Thrown "no transactions"
  ∧ made []
      (createTransaction startTransaction_throws "shop" abort_scenario []).2
    = [Connect; StartSession; StartTransaction session1].
Proof.
  apply (startTransaction_failure_not_aborted startTransaction_throws "shop"
           abort_scenario [] "no transactions").
  - reflexivity.
  - intros e. discriminate.
  - reflexivity.
Defined.

Lemma resolved_run_committed_witness :
  (∃ ws,
     made [] (createTransaction all_resolve "shop" abort_scenario []).2
     = [Connect; StartSession; StartTransaction session1]
       ++ ws ++ [CommitTransaction session1]
     ∧ Forall (λ w, is_write w = true) ws)
  ∧ last (createTransaction all_resolve "shop" abort_scenario []).2
    = Some (resolved (CommitTransaction session1))
  ∧ ∀ s, AbortTransaction s
         ∉ made [] (createTransaction all_resolve "shop" abort_scenario []).2.
Proof.
  apply (resolved_run_committed all_resolve "shop" abort_scenario []).
  vm_compute. reflexivity.
Defined.

Lemma started_transaction_is_ended_witness :
  ∃ ws tail,
    made [] (createTransaction commit_rejects "shop" create_scenario []).2
    = [Connect; StartSession; StartTransaction session1] ++ ws ++ tail
    ∧ Forall (λ w, is_write w = true) ws
    ∧ ((createTransaction commit_rejects "shop" create_scenario []).1
       = Normal tt
       ∧ tail = [CommitTransaction session1]
       ∨ (∃ e, (createTransaction commit_rejects "shop" create_scenario []).1
               = Thrown e)
         ∧ (tail = [CommitTransaction session1; AbortTransaction session1]
            ∨ tail = [AbortTransaction session1])).
Proof.
  apply (started_transaction_is_ended commit_rejects "shop" create_scenario
           []).
  - reflexivity.
  - intros e. discriminate.
  - intros e. discriminate.
Defined.

Lemma commit_failure_aborts_and_rethrows_witness :
  createTransaction commit_rejects "shop" create_scenario []
  = (Thrown "commit failed",
     issue commit_rejects []
       ([Connect; StartSession; StartTransaction session1]
        ++ flat_map (writes_of "shop" session1) create_scenario
        ++ [CommitTransaction session1; AbortTransaction session1])).
Proof.
  apply (commit_failure_aborts_and_rethrows commit_rejects "shop"
           create_scenario [] "commit failed").
  - intros h c e. destruct c; discriminate.
  - reflexivity.
  - reflexivity.
  - reflexivity.
Defined.

Lemma abort_failure_replaces_error_witness :
  createTransaction commit_and_abort_reject "shop" create_scenario []
  = (Thrown "abort failed",
     issue commit_and_abort_reject []
       ([Connect; StartSession; StartTransaction session1]
        ++ flat_map (writes_of "shop" session1) create_scenario
        ++ [CommitTransaction session1; AbortTransaction session1])).
Proof.
  apply (abort_failure_replaces_error commit_and_abort_reject "shop"
           create_scenario [] "commit failed" "abort failed").
  - intros h c e. destruct c; discriminate.
  - reflexivity.
  - reflexivity.
  - reflexivity.
Defined.

Lemma update_delete_throw_aborts_witness :
  createTransaction updateOne_throws "shop"
    ([] ++ update_operation :: [delete_operation]) []
  = (Thrown "write failed",
     issue updateOne_throws []
       ([Connect; StartSession; StartTransaction session1]
        ++ flat_map (writes_of "shop" session1) []
        ++ map (write_call OperationType.Update "shop" session1) []
        ++ [write_call OperationType.Update "shop" session1 finish_pending;
            AbortTransaction session1])).
Proof.
  apply (update_delete_throw_aborts updateOne_throws "shop" []
           [delete_operation] update_operation OperationType.Update [] []
           finish_pending [] "write failed").
  - intros h c Hc. destruct c; try reflexivity; discriminate Hc.
  - reflexivity.
  - discriminate.
  - reflexivity.
  - constructor.
  - reflexivity.
Defined.

Lemma create_throw_skips_rest_of_operation_witness :
  createTransaction insertOne_throws "shop"
    ([] ++ create_two :: [delete_operation]) []
  = (Normal tt,
     issue insertOne_throws []
       ([Connect; StartSession; StartTransaction session1]
        ++ flat_map (writes_of "shop" session1) []
        ++ map (insertOne_call "shop" session1) []
        ++ [insertOne_call "shop" session1 insert_ann]
        ++ flat_map (writes_of "shop" session1) [delete_operation]
        ++ [CommitTransaction session1])).
Proof.
  apply (create_throw_skips_rest_of_operation insertOne_throws "shop" []
           [delete_operation] create_two [] [insert_orphan] insert_ann []
           "write failed").
  - intros h c Hc. destruct c; try reflexivity; discriminate Hc.
  - reflexivity.
  - reflexivity.
  - repeat constructor. intros h e. discriminate.
  - reflexivity.
Defined.

Lemma create_only_run_commits_witness :
  (createTransaction insertOne_throws "shop" create_scenario []).1
  = Normal tt
  ∧ last (calls (createTransaction insertOne_throws "shop" create_scenario
                   []).2)
    = Some (CommitTransaction session1).
Proof.
  apply (create_only_run_commits insertOne_throws "shop" create_scenario []).
  - intros h c Hc. destruct c; try reflexivity; discriminate Hc.
  - repeat constructor.
Defined.

Lemma write_promises_not_observed_witness :
  (createTransaction all_resolve "shop" abort_scenario []).1
  = (createTransaction deleteOne_rejects "shop" abort_scenario []).1
  ∧ calls (createTransaction all_resolve "shop" abort_scenario []).2
    = calls (createTransaction deleteOne_rejects "shop" abort_scenario []).2.
Proof.
  apply (write_promises_not_observed all_resolve deleteOne_rejects "shop"
           abort_scenario [] []).
  - intros h h' c _. destruct c; simpl; try reflexivity;
      intros e; split; discriminate.
  - reflexivity.
Defined.

Lemma resolved_run_applies_fulfilled_writes_witness :
  visible empty_store
    (createTransaction deleteOne_rejects "shop" abort_scenario []).2
  = foldl apply_write (visible empty_store no_history)
      (fulfilled_writes
         (new_events []
            (createTransaction deleteOne_rejects "shop" abort_scenario []).2)).
Proof.
  apply (resolved_run_applies_fulfilled_writes deleteOne_rejects "shop"
           abort_scenario []).
  vm_compute. reflexivity.
Defined.

Lemma rejected_run_changes_nothing_witness :
  visible empty_store
    (createTransaction commit_rejects "shop" create_scenario []).2
  = visible empty_store no_history.
Proof.
  apply (rejected_run_changes_nothing commit_rejects "shop" create_scenario
           [] _ "commit failed").
  vm_compute. reflexivity.
Defined.

Lemma resolved_writes_applied_in_order_witness :
  visible empty_store
    (createTransaction all_resolve "shop" abort_scenario []).2
  = foldl apply_write (visible empty_store no_history)
      (flat_map (writes_of "shop" session1) abort_scenario).
Proof.
  apply (resolved_writes_applied_in_order all_resolve "shop" abort_scenario
           [] empty_store).
  intros h k. reflexivity.
Defined.

Lemma delete_without_index_removes_first_document_witness :
  ∃ h,
    createTransaction all_resolve "shop"
      ([] ++ {| operationType := "DELETE";
                collectors := [] ++ only_payload :: [] |} :: []) no_history
    = (Normal tt, h)
    ∧ in_transaction no_history h session1
        (DeleteOne "shop" "User" ∅ session1)
    ∧ documents
        (apply_write {[ ("shop", "User") := [ann; status_pending] ]}
                     (DeleteOne "shop" "User" ∅ session1))
        "shop" "User"
      = drop 1
          (documents {[ ("shop", "User") := [ann; status_pending] ]}
                     "shop" "User").
Proof.
  apply (delete_without_index_removes_first_document all_resolve "shop"
           [] [] [] [] only_payload no_history).
  - intros h c e. discriminate.
  - intros h c _. reflexivity.
  - reflexivity.
Defined.

Lemma update_without_index_changes_first_document_witness :
  ∃ h,
    createTransaction all_resolve "shop"
      ([] ++ {| operationType := "UPDATE";
                collectors := [] ++ only_payload :: [] |} :: []) no_history
    = (Normal tt, h)
    ∧ in_transaction no_history h session1
        (UpdateOne "shop" "User" ∅ (DollarSet status_done) session1)
    ∧ documents
        (apply_write {[ ("shop", "User") := [ann; status_pending] ]}
                     (UpdateOne "shop" "User" ∅ (DollarSet status_done)
                                session1))
        "shop" "User"
      = match documents {[ ("shop", "User") := [ann; status_pending] ]}
                        "shop" "User" with
        | [] => []
        | d :: rest => ((status_done : gmap string string) ∪ d) :: rest
        end.
Proof.
  apply (update_without_index_changes_first_document all_resolve "shop"
           [] [] [] [] only_payload no_history).
  - intros h c e. discriminate.
  - intros h c _. reflexivity.
  - reflexivity.
Defined.

Lemma constructor_runs_until_accepted_witness :
  (getInstances scheme_check ["dbUri"; "localhost"] fresh).2
  = {| instance := None; constructed := 2 |}
  ∧ Forall (λ r, ∃ e, r = Thrown e)
           (take 2
              (getInstances scheme_check
                 (["dbUri"; "localhost"]
                  ++ "mongodb://a" :: ["mongodb://b"; "dbUri"]) fresh).1)
  ∧ drop 2
      (getInstances scheme_check
         (["dbUri"; "localhost"]
          ++ "mongodb://a" :: ["mongodb://b"; "dbUri"]) fresh).1
    = replicate 3
        (Normal {| oid := 2; mongodbUri := "mongodb://a";
                   client := {| uri := "mongodb://a" |} |})
  ∧ (getInstances scheme_check
       (["dbUri"; "localhost"]
        ++ "mongodb://a" :: ["mongodb://b"; "dbUri"]) fresh).2
    = {| instance := Some {| oid := 2; mongodbUri := "mongodb://a";
                             client := {| uri := "mongodb://a" |} |};
         constructed := 3 |}.
Proof.
  apply (constructor_runs_until_accepted scheme_check ["dbUri"; "localhost"]
           "mongodb://a" ["mongodb://b"; "dbUri"] fresh).
  - reflexivity.
  - repeat constructor; eexists; reflexivity.
  - reflexivity.
Defined.
